(** * Legal Filing Assistant: a shallow embedding of the wizard and its helpers

    The development follows the TypeScript sources:
    - [App.tsx]: form sections, the zod form schema, [handleInputChange],
      [handleSpeechInput], [validateStep], [handleNext], [handlePrevious],
      [handleSubmit];
    - [components/FormSection.tsx]: the debounced guidance effect;
    - [components/FileUpload.tsx]: [handleDrop], [handleFileChange];
    - [components/SpeechInput.tsx]: the recognition effect, [toggleListening];
    - [services/azure-openai.ts]: [analyzeCaseDescription];
    - [services/bhashini.ts]: [translateText].

    JavaScript strings are sequences of UTF-16 code units, exceptions are an
    explicit result type, React state is passed explicitly, and objects used
    as dictionaries are finite maps. *)

From Stdlib Require Import ZArith NArith List Bool Ascii String Floats Lia.
From Stdlib Require Import DecimalString.
From stdpp Require Import base option list gmap strings fin_maps.

Set Warnings "-inexact-float,-register-all,-clear-no-such-hyp".
Local Open Scope nat_scope.

(** ** JavaScript strings *)

(** A JS string is a list of UTF-16 code units; [.length] is [length]. *)
Definition jsstring : Type := list N.

(** ASCII literals of the source. *)
Definition str (s : string) : jsstring :=
  (λ a, N_of_ascii a) <$> list_ascii_of_string s.

Definition SPACE : N := 32%N.

(** [s.split(' ')]: cut at every single space; never returns the empty
    array ([''.split(' ')] is [['']]), and consecutive spaces give empty
    tokens. *)
Fixpoint split (s : jsstring) : list jsstring :=
  match s with
  | [] => [[]]
  | c :: s' =>
      if (c =? SPACE)%N then [] :: split s'
      else match split s' with
           | w :: ws => (c :: w) :: ws
           | [] => [[c]]
           end
  end.

(** [a.join(' ')]. *)
Fixpoint join (ws : list jsstring) : jsstring :=
  match ws with
  | [] => []
  | [w] => w
  | w :: ws' => w ++ SPACE :: join ws'
  end.

Definition jsstring_eqb (a b : jsstring) : bool := bool_decide (a = b).

(** [s.startsWith(k)] on code units. *)
Fixpoint starts_with (k s : jsstring) : bool :=
  match k, s with
  | [], _ => true
  | _ :: _, [] => false
  | a :: k', b :: s' => (a =? b)%N && starts_with k' s'
  end.

(** [s.includes(k)] for strings: [k] occurs as a substring of [s]. *)
Fixpoint string_includes (k s : jsstring) : bool :=
  starts_with k s ||
  match s with
  | [] => false
  | _ :: s' => string_includes k s'
  end.

(** [a.findIndex(p)]; [None] stands for [-1]. *)
Fixpoint findIndex {A} (p : A → bool) (l : list A) : option nat :=
  match l with
  | [] => None
  | x :: l' => if p x then Some 0 else S <$> findIndex p l'
  end.

(** [a.indexOf(k)] and [a.includes(k)] for arrays of strings (strict
    equality of strings is equality of contents). *)
Definition indexOf (k : jsstring) (l : list jsstring) : option nat :=
  findIndex (jsstring_eqb k) l.

Definition array_includes (k : jsstring) (l : list jsstring) : bool :=
  existsb (jsstring_eqb k) l.

(** Truthiness of [a[i]] for an array of strings: defined and non-empty. *)
Definition truthy_word (w : option jsstring) : bool :=
  match w with
  | Some (_ :: _) => true
  | _ => false
  end.

(** Decimal rendering of a number inside a template string. *)
Definition nat_to_jsstring (n : nat) : jsstring :=
  str (NilZero.string_of_uint (Nat.to_uint n)).

(** ** JavaScript values and completions *)

(** Values received from outside (JSON payloads, SDK responses).  Property
    names are the ASCII identifiers of the program. *)
Inductive jsval : Type :=
| JUndefined
| JNull
| JBool (b : bool)
| JNum (d : float)
| JStr (s : jsstring)
| JArr (items : list jsval)
| JObj (props : list (string * jsval)).

(** [!!v]. *)
Definition truthy (v : jsval) : bool :=
  match v with
  | JUndefined | JNull => false
  | JBool b => b
  | JNum d => negb (PrimFloat.eqb d 0%float || negb (PrimFloat.eqb d d))
  | JStr s => negb (bool_decide (s = []))
  | JArr _ | JObj _ => true
  end.

(** [a || b]. *)
Definition js_or (a b : jsval) : jsval := if truthy a then a else b.

Fixpoint assoc_lookup {A} (k : string) (l : list (string * A)) : option A :=
  match l with
  | [] => None
  | (k', v) :: l' => if bool_decide (k = k') then Some v else assoc_lookup k l'
  end.

Record ZodIssue := { issue_path : string; issue_message : jsstring }.

(** What a [throw] carries. *)
Inductive exn : Type :=
| TypeError
| ErrorMsg (message : jsstring)
| ZodError (issues : list ZodIssue)
| Thrown (v : jsval).

(** The outcome of evaluating code that may throw; for an [async] function,
    [Throw] is a rejected promise. *)
Inductive completion (A : Type) : Type :=
| Normal (a : A)
| Throw (e : exn).
Arguments Normal {A} a.
Arguments Throw {A} e.

#[global] Instance completion_ret : MRet completion := λ A a, Normal a.
#[global] Instance completion_bind : MBind completion := λ A B f m,
  match m with
  | Normal a => f a
  | Throw e => Throw e
  end.

(** [try { body } catch (e) { handler }]. *)
Definition try_catch {A} (body : completion A) (handler : exn → completion A)
  : completion A :=
  match body with
  | Normal a => Normal a
  | Throw e => handler e
  end.

(** [v.p] for a property name [p] that no prototype defines: a [TypeError]
    on [undefined] and [null], the own property of an object, [undefined]
    otherwise. *)
Definition get_prop (v : jsval) (p : string) : completion jsval :=
  match v with
  | JUndefined | JNull => Throw TypeError
  | JObj props => Normal (default JUndefined (assoc_lookup p props))
  | _ => Normal JUndefined
  end.

(** [v?.p]. *)
Definition get_prop_opt (v : jsval) (p : string) : completion jsval :=
  match v with
  | JUndefined | JNull => Normal JUndefined
  | _ => get_prop v p
  end.

(** [v[0]]. *)
Definition get_first (v : jsval) : completion jsval :=
  match v with
  | JUndefined | JNull => Throw TypeError
  | JArr items => Normal (default JUndefined (head items))
  | JStr (c :: _) => Normal (JStr [c])
  | JObj props => Normal (default JUndefined (assoc_lookup "0" props))
  | _ => Normal JUndefined
  end.

(** ** types.ts *)

Record File := { file_name : jsstring; file_size : N }.

(** A form value: [string | File]. *)
Inductive FormValue : Type :=
| VStr (s : jsstring)
| VFile (f : File).

Inductive FieldType := TText | TSelect | TDate | TFile.

(** A regular expression is represented by its [test] function. *)
Record Validation := { pattern : jsstring → bool; message : jsstring }.

(** [FormField]; [tooltip] and [options] are display-only and left out. *)
Record FormField := {
  f_id : string;
  f_label : jsstring;
  f_type : FieldType;
  f_required : bool;
  f_validation : option Validation
}.

Record FormSection := { title : jsstring; fields : list FormField }.

Inductive StatusKind := pending | reviewing | approved | rejected.

Record ApplicationStatus := {
  st_id : jsstring;
  st_status : StatusKind;
  st_lastUpdated : jsstring;
  st_comments : option jsstring
}.

(** Truthiness of [data[field]]: [undefined] and [''] are falsy, any
    [File] object is truthy. *)
Definition truthy_value (v : option FormValue) : bool :=
  match v with
  | Some (VStr s) => negb (bool_decide (s = []))
  | Some (VFile _) => true
  | None => false
  end.

(** ** Character classes of the two regular expressions *)

(** [[a-zA-Z]]. *)
Definition is_letter (c : N) : bool :=
  ((97 <=? c) && (c <=? 122) || (65 <=? c) && (c <=? 90))%N.

(** [\s]: the ECMAScript white space and line terminator code units. *)
Definition is_space (c : N) : bool :=
  ((9 <=? c) && (c <=? 13) || (c =? 32) || (c =? 160) || (c =? 5760)
   || (8192 <=? c) && (c <=? 8202) || (c =? 8232) || (c =? 8233)
   || (c =? 8239) || (c =? 8287) || (c =? 12288) || (c =? 65279))%N.

Definition letters_and_spaces (s : jsstring) : bool :=
  forallb (λ c, is_letter c || is_space c) s.

(** [/^[a-zA-Z\s]{2,50}$/.test(s)]. *)
Definition name_pattern (s : jsstring) : bool :=
  letters_and_spaces s && (2 <=? length s) && (length s <=? 50).

(** [/^[a-zA-Z\s]+$/.test(s)]. *)
Definition name_regex (s : jsstring) : bool :=
  letters_and_spaces s && (1 <=? length s).

(** ** App.tsx: static tables *)

(** The two entries of [formSections]. *)
Definition personalInformation : FormSection :=
  {| title := str "Personal Information";
     fields := [
       {| f_id := "name"; f_label := str "Full Name"; f_type := TText;
          f_required := true;
          f_validation := Some
            {| pattern := name_pattern;
               message := str "Please enter a valid name (2-50 characters, letters only)" |} |};
       {| f_id := "dob"; f_label := str "Date of Birth"; f_type := TDate;
          f_required := true; f_validation := None |};
       {| f_id := "address"; f_label := str "Current Address"; f_type := TText;
          f_required := true; f_validation := None |};
       {| f_id := "idProof"; f_label := str "Identity Proof"; f_type := TFile;
          f_required := true; f_validation := None |} ] |}.

Definition caseInformation : FormSection :=
  {| title := str "Case Information";
     fields := [
       {| f_id := "caseType"; f_label := str "Type of Case"; f_type := TSelect;
          f_required := true; f_validation := None |};
       {| f_id := "caseDescription"; f_label := str "Case Description";
          f_type := TText; f_required := true; f_validation := None |};
       {| f_id := "supportingDocs"; f_label := str "Supporting Documents";
          f_type := TFile; f_required := true; f_validation := None |} ] |}.

Definition formSections : list FormSection :=
  [personalInformation; caseInformation].

Definition steps : list jsstring :=
  [str "Personal Info"; str "Case Details"; str "Review"; str "Submit"].

(** ** The part of zod (v3) that [formSchema] uses *)

Inductive ZodCheck : Type :=
| ZMin (n : nat) (msg : option jsstring)
| ZMax (n : nat) (msg : option jsstring)
| ZRegex (test : jsstring → bool) (msg : option jsstring).

Inductive ZodType : Type :=
| z_string (checks : list ZodCheck)
| z_instanceof_File (msg : jsstring).

(** The message of a failed string check: the one given, or zod's default. *)
Definition check_issue (c : ZodCheck) (s : jsstring) : list jsstring :=
  match c with
  | ZMin n msg =>
      if length s <? n
      then [default (str "String must contain at least " ++ nat_to_jsstring n
                       ++ str " character(s)") msg]
      else []
  | ZMax n msg =>
      if n <? length s
      then [default (str "String must contain at most " ++ nat_to_jsstring n
                       ++ str " character(s)") msg]
      else []
  | ZRegex test msg =>
      if test s then [] else [default (str "Invalid") msg]
  end.

(** Messages of the issues a schema raises on one value, in order: a string
    schema rejects a non-string at once and otherwise runs every check; an
    [instanceof] schema accepts exactly the [File] objects. *)
Definition zod_issues (t : ZodType) (v : option FormValue) : list jsstring :=
  match t with
  | z_string checks =>
      match v with
      | Some (VStr s) => flat_map (λ c, check_issue c s) checks
      | Some (VFile _) => [str "Expected string, received object"]
      | None => [str "Required"]
      end
  | z_instanceof_File msg =>
      match v with
      | Some (VFile _) => []
      | _ => [msg]
      end
  end.

(** [z.object(shape).parse(data)]: every key of the shape is parsed in
    order; any issue makes [parse] throw a [ZodError] carrying all of them. *)
Definition zod_object_parse (shape : list (string * ZodType))
    (data : gmap string FormValue) : completion unit :=
  let issues :=
    flat_map (λ kt : string * ZodType,
      (λ m, {| issue_path := kt.1; issue_message := m |})
        <$> zod_issues kt.2 (data !! kt.1)) shape in
  match issues with
  | [] => Normal ()
  | _ :: _ => Throw (ZodError issues)
  end.

Definition formSchema : list (string * ZodType) := [
  ("name", z_string [ZMin 2 None; ZMax 50 None; ZRegex name_regex None]);
  ("dob", z_string [ZMin 1 (Some (str "Date of birth is required"))]);
  ("address", z_string [ZMin 10 (Some (str "Please enter a complete address"))]);
  ("idProof", z_instanceof_File (str "Identity proof is required"));
  ("caseType", z_string [ZMin 1 (Some (str "Please select a case type"))]);
  ("caseDescription",
     z_string [ZMin 50 (Some (str "Please provide a detailed description"))]);
  ("supportingDocs", z_instanceof_File (str "Supporting documents are required"))
].

(** ** App.tsx: state and handlers *)

Record AppState := {
  formData : gmap string FormValue;
  currentStep : Z;
  errors : gmap string jsstring;
  status : ApplicationStatus
}.

Definition setFormData (fd : gmap string FormValue) (st : AppState) : AppState :=
  {| formData := fd; currentStep := currentStep st;
     errors := errors st; status := status st |}.

Definition setCurrentStep (n : Z) (st : AppState) : AppState :=
  {| formData := formData st; currentStep := n;
     errors := errors st; status := status st |}.

Definition setErrors (e : gmap string jsstring) (st : AppState) : AppState :=
  {| formData := formData st; currentStep := currentStep st;
     errors := e; status := status st |}.

Definition setStatus (s : ApplicationStatus) (st : AppState) : AppState :=
  {| formData := formData st; currentStep := currentStep st;
     errors := errors st; status := s |}.

(** The state of the first render. *)
Definition initialState (now : jsstring) : AppState :=
  {| formData := ∅; currentStep := 0; errors := ∅;
     status := {| st_id := str "123"; st_status := pending;
                  st_lastUpdated := now;
                  st_comments := Some (str "Your application is being processed.") |} |}.

Definition handleInputChange (id : string) (value : FormValue) (st : AppState)
  : AppState :=
  setErrors (delete id (errors st)) (setFormData (<[id := value]> (formData st)) st).

(** [formSections[i]]: [undefined] outside the array. *)
Definition section_at (i : Z) : option FormSection :=
  if (i <? 0)%Z then None else formSections !! Z.to_nat i.

Definition MSG_REQUIRED : jsstring := str "This field is required".

(** [issues.reduce((acc, err) => { acc[err.path[0]] = err.message; ... }, {})]. *)
Definition errors_of_issues (issues : list ZodIssue) : gmap string jsstring :=
  fold_left (λ acc err, <[issue_path err := issue_message err]> acc) issues ∅.

(** [validateStep]: the boolean it returns and the state after its
    [setErrors] call, if any.  Reading [.fields] of [formSections[currentStep]]
    throws when the index is outside the table. *)
Definition validateStep (st : AppState) : completion (bool * AppState) :=
  sec ← match section_at (currentStep st) with
        | Some sec => Normal sec
        | None => Throw TypeError
        end;
  let currentFields := f_id <$> fields sec in
  let currentData :=
    filter (λ kv : string * FormValue, kv.1 ∈ currentFields) (formData st) in
  let requiredFields := f_id <$> filter (λ f, f_required f = true) (fields sec) in
  let missingFields :=
    filter (λ field, truthy_value (currentData !! field) = false) requiredFields in
  if 0 <? length missingFields then
    let newErrors :=
      fold_left (λ acc field, <[field := MSG_REQUIRED]> acc) missingFields ∅ in
    Normal (false, setErrors newErrors st)
  else
    try_catch
      (shape ← mapM (M := completion) (λ field,
                 match assoc_lookup field formSchema with
                 | Some t => Normal (field, t)
                 | None => Throw TypeError
                 end) currentFields;
       _ ← zod_object_parse shape currentData;
       Normal (true, st))
      (λ error,
         match error with
         | ZodError issues => Normal (false, setErrors (errors_of_issues issues) st)
         | _ => Normal (false, st)
         end).

Definition LAST_STEP : Z := Z.of_nat (length steps) - 1.

Definition handleNext (st : AppState) : completion AppState :=
  '(ok, st') ← validateStep st;
  if ok : bool then
    Normal (setErrors ∅ (setCurrentStep (Z.min (currentStep st' + 1) LAST_STEP) st'))
  else Normal st'.

Definition handlePrevious (st : AppState) : AppState :=
  setErrors ∅ (setCurrentStep (Z.max (currentStep st - 1) 0) st).

(** [handleSubmit]; [now] is [new Date().toISOString()] at the call. *)
Definition handleSubmit (now : jsstring) (st : AppState) : completion AppState :=
  '(ok, st') ← validateStep st;
  if ok : bool then
    Normal (setCurrentStep LAST_STEP
              (setStatus {| st_id := str "123"; st_status := reviewing;
                            st_lastUpdated := now;
                            st_comments := Some (str "Your application is under review.") |}
                 st'))
  else Normal st'.

(** ** services/bhashini.ts and App.tsx: speech input *)

Definition BHASHINI_API_KEY : jsstring := str "your-api-key".
Definition BHASHINI_API_URL : jsstring := str "https://bhashini.gov.in/api/v1".

(** The keyword table of [handleSpeechInput], in [Object.entries] order.
    The Devanagari keywords are spelled out in code units. *)
Definition fieldMappings : list (string * list jsstring) := [
  ("name", [str "name"; str "naam"; [2344; 2366; 2350]%N]);
  ("address", [str "address"; str "pata"; [2346; 2340; 2366]%N]);
  ("caseDescription",
     [str "case"; str "description"; [2350; 2366; 2350; 2354; 2366]%N;
      [2357; 2367; 2357; 2352; 2339]%N])
].

Section Speech.
(** [String.prototype.toLowerCase] (the full Unicode mapping) and the HTTP
    client are supplied by the platform. *)
Variable toLowerCase : jsstring → jsstring.
Variable axios_post : jsstring → jsval → jsval → completion jsval.

Definition translateText (text sourceLanguage targetLanguage : jsstring)
  : completion jsval :=
  try_catch
    (response ← axios_post (BHASHINI_API_URL ++ str "/translate")
       (JObj [("text", JStr text); ("sourceLanguage", JStr sourceLanguage);
              ("targetLanguage", JStr targetLanguage)])
       (JObj [("headers",
               JObj [("Authorization", JStr (str "Bearer " ++ BHASHINI_API_KEY));
                     ("Content-Type", JStr (str "application/json"))])]);
     get_prop response "data")
    (λ _, Throw (ErrorMsg (str "Translation failed"))).

(** [v.toLowerCase()]: a [TypeError] unless [v] is a string. *)
Definition call_toLowerCase (v : jsval) : completion jsstring :=
  match v with
  | JStr s => Normal (toLowerCase s)
  | _ => Throw TypeError
  end.

(** The two nested [forEach] loops of the [try] block. *)
Definition extract_translated (translatedWords : list jsstring) (st : AppState)
  : AppState :=
  fold_left (λ st (entry : string * list jsstring),
    fold_left (λ st keyword,
      match findIndex (λ word, string_includes (toLowerCase keyword) word)
              translatedWords with
      | Some keywordIndex =>
          if truthy_word (translatedWords !! (keywordIndex + 1))
          then handleInputChange entry.1
                 (VStr (join (drop (keywordIndex + 1) translatedWords))) st
          else st
      | None => st
      end) entry.2 st) fieldMappings st.

(** The two nested [forEach] loops of the [catch] block. *)
Definition extract_fallback (words : list jsstring) (st : AppState) : AppState :=
  fold_left (λ st (entry : string * list jsstring),
    fold_left (λ st keyword,
      if array_includes keyword words then
        match indexOf keyword words with
        | Some keywordIndex =>
            if truthy_word (words !! (keywordIndex + 1))
            then handleInputChange entry.1
                   (VStr (join (drop (keywordIndex + 1) words))) st
            else st
        | None => st
        end
      else st) entry.2 st) fieldMappings st.

Definition handleSpeechInput (transcript : jsstring) (st : AppState)
  : completion AppState :=
  let words := split (toLowerCase transcript) in
  try_catch
    (translatedText ← translateText transcript (str "auto") (str "en");
     text ← get_prop translatedText "translatedText";
     lowered ← call_toLowerCase text;
     let translatedWords := split lowered in
     Normal (extract_translated translatedWords st))
    (λ _, Normal (extract_fallback words st)).
End Speech.

(** Lower-casing of the ASCII letters; it agrees with [toLowerCase] on
    strings of ASCII code units. *)
Definition ascii_toLowerCase (s : jsstring) : jsstring :=
  (λ c, if ((65 <=? c) && (c <=? 90))%N then (c + 32)%N else c) <$> s.

(** ** services/azure-openai.ts *)

Record Env := {
  VITE_AZURE_OPENAI_ENDPOINT : option jsstring;
  VITE_AZURE_OPENAI_API_KEY : option jsstring;
  VITE_AZURE_OPENAI_DEPLOYMENT : option jsstring
}.

(** The one method of the SDK client that the module calls: deployment
    name, messages (role, content), options. *)
Record OpenAIClient := {
  getChatCompletions :
    jsstring → list (jsstring * jsstring) → jsval → completion jsval
}.

(** [LegalGuidance]; at run time the fields hold whatever the service sent. *)
Record LegalGuidance := {
  explanation : jsval;
  requirements : jsval;
  suggestions : jsval
}.

Definition GUIDANCE_UNAVAILABLE : LegalGuidance :=
  {| explanation := JStr (str
       "AI analysis is currently unavailable. Please proceed with your application.");
     requirements := JArr []; suggestions := JArr [] |}.

Definition GUIDANCE_FALLBACK : LegalGuidance :=
  {| explanation := JStr (str
       "Unable to analyze the case at this moment. Please continue with your application.");
     requirements := JArr []; suggestions := JArr [] |}.

Section AzureOpenAI.
Variable env : Env.
(** [new OpenAIClient(endpoint, new AzureKeyCredential(apiKey))] and
    [JSON.parse] are supplied by the platform. *)
Variable new_OpenAIClient : jsstring → jsstring → completion OpenAIClient.
Variable JSON_parse : jsval → completion jsval.

Definition endpoint : jsstring := default [] (VITE_AZURE_OPENAI_ENDPOINT env).
Definition apiKey : jsstring := default [] (VITE_AZURE_OPENAI_API_KEY env).
Definition deploymentName : jsstring :=
  default [] (VITE_AZURE_OPENAI_DEPLOYMENT env).

(** [endpoint && apiKey && deploymentName], as a condition. *)
Definition isConfigured : bool :=
  truthy_word (VITE_AZURE_OPENAI_ENDPOINT env)
  && truthy_word (VITE_AZURE_OPENAI_API_KEY env)
  && truthy_word (VITE_AZURE_OPENAI_DEPLOYMENT env).

(** The module-level singleton; [None] is [null]. *)
Definition client : option OpenAIClient :=
  if isConfigured then
    match new_OpenAIClient endpoint apiKey with
    | Normal c => Some c
    | Throw _ => None
    end
  else None.

(** The [messages] array and the options object of the request. *)
Definition analysis_messages (description : jsstring)
  : list (jsstring * jsstring) := [
  (str "system",
   str "You are a legal assistant helping to analyze case descriptions and provide guidance.");
  (str "user",
   str "Please analyze this legal case description and provide guidance: "
     ++ description) ].

Definition ANALYSIS_OPTIONS : jsval :=
  JObj [("temperature", JNum 0.7%float); ("maxTokens", JNum 800%float)].

Definition analyzeCaseDescription (description : jsstring)
  : completion LegalGuidance :=
  match isConfigured, client with
  | true, Some c =>
      try_catch
        (let messages := analysis_messages description in
         response ← getChatCompletions c deploymentName messages ANALYSIS_OPTIONS;
         choices ← get_prop response "choices";
         choice ← get_first choices;
         msg ← get_prop_opt choice "message";
         guidance ← get_prop_opt msg "content";
         if negb (truthy guidance) then
           Throw (ErrorMsg (str "No guidance received from Azure OpenAI"))
         else
           try_catch
             (guidanceObj ← JSON_parse guidance;
              e ← get_prop guidanceObj "explanation";
              r ← get_prop guidanceObj "requirements";
              s ← get_prop guidanceObj "suggestions";
              Normal {| explanation := js_or e (JStr []);
                        requirements := js_or r (JArr []);
                        suggestions := js_or s (JArr []) |})
             (λ _, Normal {| explanation := guidance;
                             requirements := JArr [];
                             suggestions := JArr [] |}))
        (λ error, Normal GUIDANCE_FALLBACK)
  | _, _ => Normal GUIDANCE_UNAVAILABLE
  end.
End AzureOpenAI.

(** ** components/FormSection.tsx: the debounced guidance effect *)

(** The component's state together with what its effect has scheduled:
    the dependency [formData.caseDescription] of the last render, the
    pending [setTimeout] (milliseconds left, text captured by [analyzeCase]),
    the calls of [analyzeCaseDescription] made so far, and the ones among
    them (by position in [issued]) whose promise has not settled. *)
Record AnalyzerState := {
  caseDescription : option FormValue;
  debounceTimer : option (nat * jsstring);
  issued : list jsstring;
  inFlight : list nat;
  isAnalyzing : bool;
  aiGuidance : option LegalGuidance
}.

Inductive AnalyzerEvent : Type :=
| Render (v : option FormValue)
| Elapse (ms : nat)
| Settle (id : nat) (outcome : completion LegalGuidance).

#[global] Instance File_eq_dec : EqDecision File.
Proof. solve_decision. Defined.
#[global] Instance FormValue_eq_dec : EqDecision FormValue.
Proof. solve_decision. Defined.

Definition DEBOUNCE_MS : nat := 1000.

(** The body of the effect: the timer it arms, if any. *)
Definition run_effect (v : option FormValue) : option (nat * jsstring) :=
  match v with
  | Some (VStr s) =>
      if negb (bool_decide (s = [])) && (50 <? length s)
      then Some (DEBOUNCE_MS, s) else None
  | _ => None
  end.

(** The first render. *)
Definition mount (v : option FormValue) : AnalyzerState :=
  {| caseDescription := v; debounceTimer := run_effect v; issued := [];
     inFlight := []; isAnalyzing := false; aiGuidance := None |}.

Definition analyzer_step (ev : AnalyzerEvent) (st : AnalyzerState) : AnalyzerState :=
  match ev with
  | Render v =>
      (* the effect re-runs only when its dependency changed; its cleanup
         clears the previous timer first *)
      if bool_decide (v = caseDescription st) then st
      else {| caseDescription := v; debounceTimer := run_effect v;
              issued := issued st; inFlight := inFlight st;
              isAnalyzing := isAnalyzing st; aiGuidance := aiGuidance st |}
  | Elapse ms =>
      match debounceTimer st with
      | Some (remaining, text) =>
          if remaining <=? ms then
            (* the timer fires: [analyzeCase] sets the flag and calls the service *)
            {| caseDescription := caseDescription st; debounceTimer := None;
               issued := issued st ++ [text];
               inFlight := inFlight st ++ [length (issued st)];
               isAnalyzing := true; aiGuidance := aiGuidance st |}
          else
            {| caseDescription := caseDescription st;
               debounceTimer := Some (remaining - ms, text);
               issued := issued st; inFlight := inFlight st;
               isAnalyzing := isAnalyzing st; aiGuidance := aiGuidance st |}
      | None => st
      end
  | Settle id outcome =>
      if bool_decide (id ∈ inFlight st) then
        (* [try { setAiGuidance(await ...) } catch { log } finally { flag off }] *)
        {| caseDescription := caseDescription st;
           debounceTimer := debounceTimer st;
           issued := issued st;
           inFlight := filter (λ i, i ≠ id) (inFlight st);
           isAnalyzing := false;
           aiGuidance := match outcome with
                         | Normal guidance => Some guidance
                         | Throw _ => aiGuidance st
                         end |}
      else st
  end.

Definition analyzer_run (evs : list AnalyzerEvent) (st : AnalyzerState)
  : AnalyzerState :=
  fold_left (λ st ev, analyzer_step ev st) evs st.

(** An edit of the description followed by [gap] milliseconds without one. *)
Definition edit_events (edits : list (jsstring * nat)) : list AnalyzerEvent :=
  flat_map (λ e : jsstring * nat, [Render (Some (VStr e.1)); Elapse e.2]) edits.

(** ** components/FileUpload.tsx *)

Definition MAX_FILE_SIZE : N := (10 * 1024 * 1024)%N.

(** What a handler does besides returning: calls of the [onChange] prop,
    [alert]s, and the reset of the input element. *)
Inductive UploadEffect : Type :=
| OnChange (file : File)
| Alert (msg : jsstring)
| ResetInput.

(** [files] is [e.dataTransfer.files]; [None] is a missing list. *)
Definition handleDrop (files : option (list File)) : list UploadEffect :=
  match files with
  | Some (file :: _) =>
      if (file_size file <=? MAX_FILE_SIZE)%N then [OnChange file]
      else [Alert (str "File size should not exceed 10MB")]
  | _ => []
  end.

(** [files] is [e.target.files]. *)
Definition handleFileChange (files : option (list File)) : list UploadEffect :=
  match files with
  | Some (file :: _) =>
      if (file_size file <=? MAX_FILE_SIZE)%N then [OnChange file]
      else [Alert (str "File size should not exceed 10MB"); ResetInput]
  | _ => []
  end.

(** [FormSection] passes [(file) => onInputChange(field.id, file)] as
    [onChange]; the other effects do not touch the application state. *)
Definition apply_upload (id : string) (effs : list UploadEffect) (st : AppState)
  : AppState :=
  fold_left (λ st eff,
    match eff with
    | OnChange file => handleInputChange id (VFile file) st
    | _ => st
    end) effs st.

(** ** components/SpeechInput.tsx *)

(** The recognition object: [start()] on a started recognition throws, and
    [stop()] on a stopped one does nothing. *)
Record Recognition := {
  continuous : bool;
  interimResults : bool;
  lang : jsstring;
  started : bool
}.

Record SpeechState := {
  isListening : bool;
  recognition : option Recognition;
  selectedLanguage : jsstring;
  isTranslating : bool
}.

(** The initialisation effect: the handle is constructed only when
    [window.webkitSpeechRecognition] exists. *)
Definition init_recognition (capable : bool) (st : SpeechState) : SpeechState :=
  if capable then
    {| isListening := isListening st;
       recognition := Some {| continuous := true; interimResults := true;
                              lang := selectedLanguage st; started := false |};
       selectedLanguage := selectedLanguage st;
       isTranslating := isTranslating st |}
  else st.

Definition speech_initial : SpeechState :=
  {| isListening := false; recognition := None;
     selectedLanguage := str "hi-IN"; isTranslating := false |}.

Definition recognition_start (r : Recognition) : completion Recognition :=
  if started r then Throw (ErrorMsg (str "InvalidStateError"))
  else Normal {| continuous := continuous r; interimResults := interimResults r;
                 lang := lang r; started := true |}.

Definition recognition_stop (r : Recognition) : completion Recognition :=
  Normal {| continuous := continuous r; interimResults := interimResults r;
            lang := lang r; started := false |}.

(** [recognition?.m()]. *)
Definition optional_call (m : Recognition → completion Recognition)
    (r : option Recognition) : completion (option Recognition) :=
  match r with
  | Some r => r' ← m r; Normal (Some r')
  | None => Normal None
  end.

Definition toggleListening (st : SpeechState) : completion SpeechState :=
  r ← (if isListening st
       then optional_call recognition_stop (recognition st)
       else optional_call recognition_start (recognition st));
  Normal {| isListening := negb (isListening st); recognition := r;
            selectedLanguage := selectedLanguage st;
            isTranslating := isTranslating st |}.

(** ** Step validation as the specification words it, and as the code checks it *)

(** The specification's reading: a field is in order when it is present and
    non-empty if required, and matches the pattern of its validation rule
    if it carries one and is present and non-empty. *)
Definition spec_field_ok (fd : gmap string FormValue) (f : FormField) : bool :=
  (negb (f_required f) || truthy_value (fd !! f_id f))
  && match f_validation f, fd !! f_id f with
     | Some v, Some (VStr (c :: s)) => pattern v (c :: s)
     | _, _ => true
     end.

Definition spec_advance_ok (sec : FormSection) (fd : gmap string FormValue) : bool :=
  forallb (spec_field_ok fd) (fields sec).

(** The required fields of a section whose value is absent or empty. *)
Definition missing_fields (sec : FormSection) (fd : gmap string FormValue)
  : list string :=
  filter (λ id, truthy_value (fd !! id) = false)
         (f_id <$> filter (λ f, f_required f = true) (fields sec)).

(** The messages the form schema raises on the value of one field. *)
Definition schema_issues (id : string) (fd : gmap string FormValue)
  : list jsstring :=
  match assoc_lookup id formSchema with
  | Some t => zod_issues t (fd !! id)
  | None => []
  end.

(** A step passes when no required field is missing and the schema raises
    no issue on any field of the step. *)
Definition step_passes (sec : FormSection) (fd : gmap string FormValue) : bool :=
  bool_decide (missing_fields sec fd = [])
  && forallb (λ f, bool_decide (schema_issues (f_id f) fd = [])) (fields sec).

(** The message shown for a field after a failed pass: the required-message
    for the missing fields when there are any; otherwise the message of the
    last schema issue of the field. *)
Definition expected_error (sec : FormSection) (fd : gmap string FormValue)
    (id : string) : option jsstring :=
  if bool_decide (missing_fields sec fd = []) then
    if bool_decide (id ∈ f_id <$> fields sec) then last (schema_issues id fd)
    else None
  else if bool_decide (id ∈ missing_fields sec fd) then Some MSG_REQUIRED
  else None.

(** The last keyword of a table row that yields a value. *)
Definition last_some {A B} (f : A → option B) (l : list A) : option B :=
  last (omap f l).

(** ** Sample data used in the examples below *)

Definition mk_issue (id : string) (m : jsstring) : ZodIssue :=
  {| issue_path := id; issue_message := m |}.

Definition sample_file : File :=
  {| file_name := str "id.pdf"; file_size := 1000 |}.

Definition personal_data (address : jsstring) : gmap string FormValue :=
  <["name" := VStr (str "Alice")]>
  (<["dob" := VStr (str "2000-01-01")]>
  (<["address" := VStr address]>
  (<["idProof" := VFile sample_file]> ∅))).

Definition case_data (description : jsstring) : gmap string FormValue :=
  <["caseType" := VStr (str "Civil Case")]>
  (<["caseDescription" := VStr description]>
  (<["supportingDocs" := VFile sample_file]> ∅)).

Definition at_step (n : Z) (fd : gmap string FormValue) : AppState :=
  setCurrentStep n (setFormData fd (initialState (str "2024-01-01T00:00:00.000Z"))).

(** The status record that [handleSubmit] installs. *)
Definition REVIEWING (now : jsstring) : ApplicationStatus :=
  {| st_id := str "123"; st_status := reviewing; st_lastUpdated := now;
     st_comments := Some (str "Your application is under review.") |}.

(** A description of [n] characters. *)
Definition text_of_length (n : nat) : jsstring := replicate n 97%N.

(** ** Edit sequences of the description *)

(** Every text of the sequence differs from the one before it, starting
    from the description [prev] of the last render. *)
Fixpoint edits_change (prev : option FormValue) (texts : list jsstring) : bool :=
  match texts with
  | [] => true
  | s :: rest =>
      negb (bool_decide (Some (VStr s) = prev)) && edits_change (Some (VStr s)) rest
  end.

(** The request that a settled description of text [s] leads to. *)
Definition request_for (s : jsstring) : list jsstring :=
  if 50 <? length s then [s] else [].

Definition sample_guidance (text : string) : LegalGuidance :=
  {| explanation := JStr (str text); requirements := JArr []; suggestions := JArr [] |}.

(** ** Field extraction, keyword by keyword *)

(** The value one keyword yields on a token list: the tokens after the
    position [find] reports, joined, provided the token right after that
    position exists and is not empty. *)
Definition keyword_value (find : jsstring → list jsstring → option nat)
    (words : list jsstring) (keyword : jsstring) : option jsstring :=
  match find keyword words with
  | Some i =>
      if truthy_word (words !! (i + 1)) then Some (join (drop (i + 1) words))
      else None
  | None => None
  end.

(** The value a field ends up with: that of the last keyword of its table
    row that yields one. *)
Definition extracted_value (find : jsstring → list jsstring → option nat)
    (words : list jsstring) (field : string) : option jsstring :=
  keywords ← assoc_lookup field fieldMappings;
  last_some (keyword_value find words) keywords.

(** The position of the first token that contains the keyword. *)
Definition find_containing (toLowerCase : jsstring → jsstring)
    (keyword : jsstring) (words : list jsstring) : option nat :=
  findIndex (λ word, string_includes (toLowerCase keyword) word) words.

(** The text the translation service returned, when the call succeeded and
    its payload has a string [translatedText]. *)
Definition translated_text
    (axios_post : jsstring → jsval → jsval → completion jsval)
    (transcript : jsstring) : option jsstring :=
  match translateText axios_post transcript (str "auto") (str "en") with
  | Normal (JObj props) =>
      match assoc_lookup "translatedText" props with
      | Some (JStr s) => Some s
      | _ => None
      end
  | _ => None
  end.

(** The tokens that are scanned and the way a keyword is located in them. *)
Definition extraction_input (toLowerCase : jsstring → jsstring)
    (axios_post : jsstring → jsval → jsval → completion jsval)
    (transcript : jsstring)
  : (jsstring → list jsstring → option nat) * list jsstring :=
  match translated_text axios_post transcript with
  | Some t => (find_containing toLowerCase, split (toLowerCase t))
  | None => (indexOf, split (toLowerCase transcript))
  end.

(** A translation service that is down. *)
Definition axios_down : jsstring → jsval → jsval → completion jsval :=
  λ _ _ _, Throw (ErrorMsg (str "Network Error")).

(** A translation service that echoes the text. *)
Definition axios_echo : jsstring → jsval → jsval → completion jsval :=
  λ _ body _,
    Normal (JObj [("data",
      JObj [("translatedText", default JUndefined
               (match body with JObj props => assoc_lookup "text" props | _ => None end))])]).

(** One keyword applied to the state, and the whole table applied keyword
    by keyword: the shape both loops of [handleSpeechInput] have. *)
Definition apply_keyword (find : jsstring → list jsstring → option nat)
    (words : list jsstring) (field : string) (st : AppState)
    (keyword : jsstring) : AppState :=
  match keyword_value find words keyword with
  | Some v => handleInputChange field (VStr v) st
  | None => st
  end.

Definition apply_table (find : jsstring → list jsstring → option nat)
    (words : list jsstring) (table : list (string * list jsstring))
    (st : AppState) : AppState :=
  fold_left (λ st (entry : string * list jsstring),
    fold_left (apply_keyword find words entry.1) entry.2 st) table st.

(** ** Sample runs of the analyzer *)

(** Two analysis cycles whose responses arrive in the opposite order. *)
Definition stale_trace : list AnalyzerEvent := [
  Render (Some (VStr (text_of_length 60))); Elapse 1000;
  Render (Some (VStr (text_of_length 70))); Elapse 1000;
  Settle 1 (Normal (sample_guidance "guidance for the second text"));
  Settle 0 (Normal (sample_guidance "guidance for the first text"))
].

(** A state with one request in flight. *)
Definition analyzing_state : AnalyzerState :=
  analyzer_run [Render (Some (VStr (text_of_length 60))); Elapse 1000] (mount None).

Definition no_env : Env :=
  {| VITE_AZURE_OPENAI_ENDPOINT := None; VITE_AZURE_OPENAI_API_KEY := None;
     VITE_AZURE_OPENAI_DEPLOYMENT := None |}.

Definition full_env : Env :=
  {| VITE_AZURE_OPENAI_ENDPOINT := Some (str "https://example.openai.azure.com");
     VITE_AZURE_OPENAI_API_KEY := Some (str "key");
     VITE_AZURE_OPENAI_DEPLOYMENT := Some (str "gpt") |}.

(** A client whose every call is rejected, and one that answers with the
    given content. *)
Definition failing_client : OpenAIClient :=
  {| getChatCompletions := λ _ _ _, Throw (ErrorMsg (str "429")) |}.

Definition answering_client (content : jsval) : OpenAIClient :=
  {| getChatCompletions := λ _ _ _,
       Normal (JObj [("choices",
         JArr [JObj [("message", JObj [("content", content)])]])]) |}.

(** A [JSON.parse] that rejects everything: the answers below are prose. *)
Definition parse_prose : jsval → completion jsval :=
  λ _, Throw (ErrorMsg (str "SyntaxError")).

(** ** App.tsx: the controls the page renders *)

(** What a user can do: edit a field (typing, choosing, uploading or
    dictating end in [handleInputChange]) or press one of the three
    buttons. *)
Inductive UserAction : Type :=
| EditField (id : string) (value : FormValue)
| ClickPrevious
| ClickNext
| ClickSubmit (now : jsstring).

(** The conditions under which the JSX renders each button:
    [currentStep > 0], [currentStep < steps.length - 1] and
    [currentStep === steps.length - 2]. *)
Definition rendered (a : UserAction) (st : AppState) : bool :=
  match a with
  | EditField _ _ => true
  | ClickPrevious => (0 <? currentStep st)%Z
  | ClickNext => (currentStep st <? Z.of_nat (length steps) - 1)%Z
  | ClickSubmit _ => (currentStep st =? Z.of_nat (length steps) - 2)%Z
  end.

(** A handler that throws before its first state update leaves the state
    as it was. *)
Definition state_after (st : AppState) (c : completion AppState) : AppState :=
  match c with
  | Normal st' => st'
  | Throw _ => st
  end.

Definition perform (st : AppState) (a : UserAction) : AppState :=
  if rendered a st then
    match a with
    | EditField id value => handleInputChange id value st
    | ClickPrevious => handlePrevious st
    | ClickNext => state_after st (handleNext st)
    | ClickSubmit now => state_after st (handleSubmit now st)
    end
  else st.

(** ** services/bhashini.ts: language detection *)

Section Bhashini.
Variable axios_post : jsstring → jsval → jsval → completion jsval.

End Bhashini.

(** ** services/azure-openai.ts: translation improvement and document validation *)





Section AzureOpenAIHelpers.
Variable env : Env.
Variable new_OpenAIClient : jsstring → jsstring → completion OpenAIClient.
Variable JSON_parse : jsval → completion jsval.






End AzureOpenAIHelpers.

(** ** components/SpeechInput.tsx: recognition events and language changes *)

(** [s.split(sep)] for a one-character separator. *)
Fixpoint split_on (sep : N) (s : jsstring) : list jsstring :=
  match s with
  | [] => [[]]
  | c :: s' =>
      if (c =? sep)%N then [] :: split_on sep s'
      else match split_on sep s' with
           | w :: ws => (c :: w) :: ws
           | [] => [[c]]
           end
  end.

Definition HYPHEN : N := 45%N.

(** [selectedLanguage.split('-')[0]]. *)
Definition language_code (selectedLanguage : jsstring) : jsstring :=
  default [] (head (split_on HYPHEN selectedLanguage)).

Definition set_lang (language : jsstring) (r : Recognition) : Recognition :=
  {| continuous := continuous r; interimResults := interimResults r;
     lang := language; started := started r |}.

Section RecognitionEvents.
Variable axios_post : jsstring → jsval → jsval → completion jsval.

(** The transcript of an event: the first alternative of every result,
    concatenated.  A result is given by the transcripts of its
    alternatives; reading [.transcript] of a missing first alternative
    throws. *)
Definition event_transcript (results : list (list jsstring))
  : completion jsstring :=
  alternatives ← mapM (M := completion) (λ result,
    match head result with
    | Some alternative => Normal alternative
    | None => Throw TypeError
    end) results;
  Normal (concat alternatives).

(** [recognition.onresult]: the state after the handler has run to its end
    and the arguments of its calls of [onTranscript]. *)
Definition onresult (results : list (list jsstring)) (st : SpeechState)
  : completion (SpeechState * list jsval) :=
  transcript ← event_transcript results;
  calls ← try_catch
    (translatedResult ← translateText axios_post transcript
                          (language_code (selectedLanguage st)) (str "en");
     text ← get_prop translatedResult "translatedText";
     Normal [text])
    (λ error, Normal [JStr transcript]);
  Normal ({| isListening := isListening st; recognition := recognition st;
             selectedLanguage := selectedLanguage st; isTranslating := false |},
          calls).
End RecognitionEvents.

(** [recognition.onerror]. *)
Definition onerror (st : SpeechState) : SpeechState :=
  {| isListening := false; recognition := recognition st;
     selectedLanguage := selectedLanguage st; isTranslating := isTranslating st |}.

(** [handleLanguageChange]; the assignment to [recognition.lang] changes
    the object the state holds. *)
Definition handleLanguageChange (language : jsstring) (st : SpeechState)
  : completion SpeechState :=
  r ← (if isListening st then optional_call recognition_stop (recognition st)
       else Normal (recognition st));
  Normal {| isListening := (if isListening st then false else isListening st);
            recognition := set_lang language <$> r;
            selectedLanguage := language;
            isTranslating := isTranslating st |}.

(** A language change as the component goes through it: the handler, then
    the initialisation effect, which re-runs when [selectedLanguage] has
    changed. *)
Definition change_language (capable : bool) (language : jsstring)
    (st : SpeechState) : completion SpeechState :=
  st1 ← handleLanguageChange language st;
  Normal (if bool_decide (language = selectedLanguage st) then st1
          else init_recognition capable st1).

(** ** Samples for the examples of the last part *)

Definition listening_state : SpeechState :=
  {| isListening := true;
     recognition := Some {| continuous := true; interimResults := true;
                            lang := str "hi-IN"; started := true |};
     selectedLanguage := str "hi-IN"; isTranslating := false |}.

Definition valid_personal_state : AppState :=
  at_step 0 (personal_data (str "12 Main Street")).

(** ** Counting on analyzer traces *)

Definition is_render (ev : AnalyzerEvent) : bool :=
  match ev with Render _ => true | _ => false end.

Definition is_settle (ev : AnalyzerEvent) : bool :=
  match ev with Settle _ _ => true | _ => false end.

(** The number of timers pending: none or one. *)
Definition pending_timers (st : AnalyzerState) : nat :=
  match debounceTimer st with Some _ => 1 | None => 0 end.

(** The text that [handleSpeechInput] scans: the lower-cased translation,
    or the lower-cased transcript when there is none. *)
Definition scanned_text (toLowerCase : jsstring → jsstring)
    (axios_post : jsstring → jsval → jsval → completion jsval)
    (transcript : jsstring) : jsstring :=
  toLowerCase (default transcript (translated_text axios_post transcript)).

(** ** The two controls of the speech component *)

Inductive SpeechAction : Type :=
| Toggle
| ChangeLanguage (language : jsstring).

(** One more action on a component that has not thrown so far. *)
Definition speech_perform (capable : bool) (c : completion SpeechState)
    (a : SpeechAction) : completion SpeechState :=
  st ← c;
  match a with
  | Toggle => toggleListening st
  | ChangeLanguage language => change_language capable language st
  end.

(** The component after its first render. *)
Definition speech_mounted (capable : bool) : SpeechState :=
  init_recognition capable speech_initial.

(** What every run keeps true. *)
Definition analyzer_ok (st : AnalyzerState) : Prop :=
  Forall (λ s, 50 < length s) (issued st)
  ∧ (∀ r s, debounceTimer st = Some (r, s) →
       caseDescription st = Some (VStr s) ∧ 50 < length s ∧ 0 < r ≤ DEBOUNCE_MS)
  ∧ NoDup (inFlight st)
  ∧ Forall (λ i, i < length (issued st)) (inFlight st)
  ∧ (isAnalyzing st = true → inFlight st ≠ []).


(** * Properties *)

(** ** Step validation, advancing and submitting *)

(** *** The rules of the form schema *)

Lemma min_only_rule (n : nat) (msg : jsstring) (v : option FormValue) :
  zod_issues (z_string [ZMin n (Some msg)]) v = []
  ↔ ∃ s, v = Some (VStr s) ∧ n ≤ length s.
Proof.
  destruct v as [[s|f]|]; simpl; [|naive_solver..].
  destruct (Nat.ltb_spec (length s) n); simpl; split.
  - done.
  - intros (? & [= <-] & ?). lia.
  - intros _. exists s. split; [done|lia].
  - done.
Qed.

Lemma file_rule (msg : jsstring) (v : option FormValue) :
  zod_issues (z_instanceof_File msg) v = [] ↔ ∃ f, v = Some (VFile f).
Proof. destruct v as [[s|f]|]; simpl; naive_solver. Qed.

Lemma name_rule (v : option FormValue) :
  zod_issues (z_string [ZMin 2 None; ZMax 50 None; ZRegex name_regex None]) v = []
  ↔ ∃ s, v = Some (VStr s) ∧ 2 ≤ length s ≤ 50 ∧ letters_and_spaces s = true.
Proof.
  destruct v as [[s|f]|]; [|simpl; naive_solver..].
  cbn [zod_issues flat_map check_issue]. unfold name_regex.
  destruct (Nat.ltb_spec (length s) 2), (Nat.ltb_spec 50 (length s)),
    (Nat.leb_spec 1 (length s)), (letters_and_spaces s) eqn:Hl;
    simpl; (split; [intros Hnil | intros (s' & [= <-] & Hlen & Hls)]);
    try discriminate; try lia; try congruence;
    exists s; (split; [done|]); (split; [lia|done]).
Qed.

(** What the form schema asks of each field. *)
Lemma schema_rules (fd : gmap string FormValue) :
  (schema_issues "name" fd = []
   ↔ ∃ s, fd !! "name" = Some (VStr s) ∧ 2 ≤ length s ≤ 50
          ∧ letters_and_spaces s = true)
  ∧ (schema_issues "dob" fd = [] ↔ ∃ s, fd !! "dob" = Some (VStr s) ∧ 1 ≤ length s)
  ∧ (schema_issues "address" fd = []
     ↔ ∃ s, fd !! "address" = Some (VStr s) ∧ 10 ≤ length s)
  ∧ (schema_issues "idProof" fd = [] ↔ ∃ f, fd !! "idProof" = Some (VFile f))
  ∧ (schema_issues "caseType" fd = []
     ↔ ∃ s, fd !! "caseType" = Some (VStr s) ∧ 1 ≤ length s)
  ∧ (schema_issues "caseDescription" fd = []
     ↔ ∃ s, fd !! "caseDescription" = Some (VStr s) ∧ 50 ≤ length s)
  ∧ (schema_issues "supportingDocs" fd = []
     ↔ ∃ f, fd !! "supportingDocs" = Some (VFile f)).
Proof.
  repeat split; first [apply name_rule | apply min_only_rule | apply file_rule].
Qed.


#[local] Opaque formSchema.

Ltac compute_decide :=
  match goal with |- ?P => apply (bool_decide_unpack P); vm_compute; exact I end.

Lemma section_at_elem i sec : section_at i = Some sec → sec ∈ formSections.
Proof.
  unfold section_at. destruct (i <? 0)%Z; [done|].
  intros H. by eapply list_elem_of_lookup_2.
Qed.

Lemma section_at_step i sec :
  section_at i = Some sec → (0 ≤ i < 2)%Z.
Proof.
  unfold section_at. destruct (Z.ltb_spec i 0); [done|].
  intros Hl. apply lookup_lt_Some in Hl. simpl in Hl. lia.
Qed.

Lemma formSections_wf sec :
  sec ∈ formSections →
  NoDup (f_id <$> fields sec)
  ∧ Forall (λ id, is_Some (assoc_lookup id formSchema)) (f_id <$> fields sec).
Proof.
  intros Hin. unfold formSections in Hin.
  repeat (apply elem_of_cons in Hin as [-> | Hin]); [| |by apply elem_of_nil in Hin].
  - split; [compute_decide|].
    repeat constructor; vm_compute; eauto.
  - split; [compute_decide|].
    repeat constructor; vm_compute; eauto.
Qed.

Lemma current_data_lookup (ids : list string) (fd : gmap string FormValue) id :
  id ∈ ids →
  filter (λ kv : string * FormValue, kv.1 ∈ ids) fd !! id = fd !! id.
Proof.
  intros Hin. rewrite map_lookup_filter.
  destruct (fd !! id) as [v|]; simpl; [|done].
  by rewrite option_guard_True.
Qed.

Lemma filter_ext_elem {A} (P Q : A → Prop) `{!∀ x, Decision (P x), !∀ x, Decision (Q x)}
    (l : list A) :
  (∀ x, x ∈ l → (P x ↔ Q x)) → filter P l = filter Q l.
Proof.
  induction l as [|x l IH]; intros Hext; [done|].
  rewrite !filter_cons.
  rewrite IH by (intros y Hy; apply Hext; by right).
  destruct (decide (P x)) as [HP|HP], (decide (Q x)) as [HQ|HQ]; try done.
  - destruct HQ. apply Hext; [by left|done].
  - destruct HP. apply Hext; [by left|done].
Qed.

Lemma fold_required_lookup (l : list string) (m : gmap string jsstring) id :
  fold_left (λ acc field, <[field := MSG_REQUIRED]> acc) l m !! id
  = if bool_decide (id ∈ l) then Some MSG_REQUIRED else m !! id.
Proof.
  revert m. induction l as [|x l IH]; intros m; simpl; [done|].
  rewrite IH. destruct (decide (id = x)) as [->|Hne].
  - rewrite lookup_insert_eq. rewrite (bool_decide_eq_true_2 (x ∈ x :: l)) by left.
    by destruct (bool_decide (x ∈ l)).
  - rewrite lookup_insert_ne by done.
    destruct (decide (id ∈ l)) as [Hl|Hl].
    + rewrite !bool_decide_eq_true_2; [done|by right|done].
    + rewrite !bool_decide_eq_false_2; [done| |done].
      intros [?|?]%elem_of_cons; done.
Qed.

Lemma fold_issues_lookup (issues : list ZodIssue) (m : gmap string jsstring) id :
  fold_left (λ acc err, <[issue_path err := issue_message err]> acc) issues m !! id
  = match last (filter (λ e, issue_path e = id) issues) with
    | Some e => Some (issue_message e)
    | None => m !! id
    end.
Proof.
  revert m. induction issues as [|e issues IH]; intros m; simpl; [done|].
  rewrite IH, filter_cons. destruct (decide (issue_path e = id)) as [<-|Hne].
  - rewrite last_cons. destruct (last _); [done|]. by rewrite lookup_insert_eq.
  - destruct (last _); [done|]. by rewrite lookup_insert_ne.
Qed.

Lemma mapM_shape (schema : list (string * ZodType)) (ids : list string) :
  Forall (λ id, is_Some (assoc_lookup id schema)) ids →
  ∃ shape,
    mapM (M := completion) (λ field,
      match assoc_lookup field schema with
      | Some t => Normal (field, t)
      | None => Throw TypeError
      end) ids = Normal shape
    ∧ ∀ (g : string → ZodType → list ZodIssue),
        flat_map (λ kt : string * ZodType, g kt.1 kt.2) shape
        = flat_map (λ id, match assoc_lookup id schema with
                          | Some t => g id t
                          | None => []
                          end) ids.
Proof.
  induction 1 as [|id ids [t Ht] _ (shape & Hm & Hf)]; simpl.
  - by exists [].
  - exists ((id, t) :: shape). rewrite Ht. simpl. rewrite Hm. simpl.
    split; [done|]. intros g. simpl. by rewrite Hf.
Qed.

Lemma flat_map_ext_elem {A B} (f g : A → list B) (l : list A) :
  (∀ x, x ∈ l → f x = g x) → flat_map f l = flat_map g l.
Proof.
  induction l as [|x l IH]; intros Hext; simpl; [done|].
  rewrite Hext by left. rewrite IH; [done|]. intros y Hy. apply Hext. by right.
Qed.

Lemma step_issues_nil (ids : list string) (fd : gmap string FormValue) :
  flat_map (λ id, mk_issue id <$> schema_issues id fd) ids = []
  ↔ forallb (λ id, bool_decide (schema_issues id fd = [])) ids = true.
Proof.
  induction ids as [|id ids IH]; simpl; [done|].
  rewrite andb_true_iff, <- IH, bool_decide_eq_true.
  split.
  - intros [H1 H2]%app_eq_nil. split; [|done]. by apply fmap_nil_inv in H1.
  - intros [-> ->]. done.
Qed.

Lemma step_issues_filter_out (ids : list string) (fd : gmap string FormValue) id :
  id ∉ ids →
  filter (λ e, issue_path e = id)
    (flat_map (λ id, mk_issue id <$> schema_issues id fd) ids) = [].
Proof.
  induction ids as [|k ids IH]; intros Hid; simpl; [done|].
  apply not_elem_of_cons in Hid as [Hne Hid].
  rewrite filter_app, IH, app_nil_r by done.
  induction (schema_issues k fd) as [|m ms IHm]; [done|].
  rewrite fmap_cons, filter_cons_False; [done|]. simpl. congruence.
Qed.

Lemma filter_own_issues id (ms : list jsstring) :
  filter (λ e, issue_path e = id) (mk_issue id <$> ms) = mk_issue id <$> ms.
Proof.
  induction ms as [|m ms IH]; [done|].
  rewrite fmap_cons, filter_cons_True by done. by rewrite IH.
Qed.

Lemma step_issues_last (ids : list string) (fd : gmap string FormValue) id :
  NoDup ids →
  last (filter (λ e, issue_path e = id)
          (flat_map (λ id, mk_issue id <$> schema_issues id fd) ids))
  = if bool_decide (id ∈ ids) then mk_issue id <$> last (schema_issues id fd)
    else None.
Proof.
  induction 1 as [|k ids Hk Hnd IH]; simpl; [done|].
  rewrite filter_app. destruct (decide (id = k)) as [->|Hne].
  - rewrite step_issues_filter_out, app_nil_r by done.
    rewrite filter_own_issues, fmap_last.
    by rewrite bool_decide_eq_true_2 by left.
  - rewrite last_app, IH.
    assert (filter (λ e, issue_path e = id) (mk_issue k <$> schema_issues k fd) = [])
      as ->.
    { induction (schema_issues k fd) as [|m ms IHm]; [done|].
      rewrite fmap_cons, filter_cons_False; [done|]. simpl. congruence. }
    destruct (decide (id ∈ ids)) as [Hin|Hin].
    + rewrite !bool_decide_eq_true_2; [|by right|done].
      by destruct (mk_issue id <$> last (schema_issues id fd)).
    + rewrite !bool_decide_eq_false_2; [done| |done].
      intros [?|?]%elem_of_cons; done.
Qed.

Lemma forallb_fields_ids (sec : FormSection) (p : string → bool) :
  forallb (λ f, p (f_id f)) (fields sec) = forallb p (f_id <$> fields sec).
Proof. induction (fields sec) as [|f l IH]; simpl; [done|]. by rewrite IH. Qed.

(** [validateStep] on a data-entry step. *)
Lemma validateStep_section st sec :
  section_at (currentStep st) = Some sec →
  ∃ errs,
    (step_passes sec (formData st) = false →
       ∀ id, errs !! id = expected_error sec (formData st) id)
    ∧ validateStep st
      = Normal (step_passes sec (formData st),
                if step_passes sec (formData st) then st else setErrors errs st).
Proof.
  intros Hsec.
  destruct (formSections_wf sec (section_at_elem _ _ Hsec)) as [Hnd Hschema].
  unfold validateStep. rewrite Hsec. simpl.
  set (ids := f_id <$> fields sec) in *.
  set (fd := formData st).
  set (cd := filter (λ kv : string * FormValue, kv.1 ∈ ids) fd).
  assert (Hcd : ∀ id, id ∈ ids → cd !! id = fd !! id)
    by (intros; by apply current_data_lookup).
  assert (Hmiss :
    filter (λ field, truthy_value (cd !! field) = false)
      (f_id <$> filter (λ f, f_required f = true) (fields sec))
    = missing_fields sec fd).
  { unfold missing_fields. apply filter_ext_elem. intros id Hid.
    rewrite Hcd; [done|].
    apply list_elem_of_fmap in Hid as (f & -> & Hf).
    apply list_elem_of_filter in Hf as [_ Hf]. by apply list_elem_of_fmap_2. }
  rewrite Hmiss. unfold step_passes, expected_error. fold fd.
  destruct (missing_fields sec fd) as [|m ms] eqn:Hm.
  - rewrite bool_decide_eq_true_2 by done. simpl.
    destruct (mapM_shape formSchema ids Hschema) as (shape & -> & Hshape). simpl.
    unfold zod_object_parse.
    rewrite (Hshape (λ k t, (λ m, {| issue_path := k; issue_message := m |})
                              <$> zod_issues t (cd !! k))).
    rewrite (flat_map_ext_elem _ (λ id, mk_issue id <$> schema_issues id fd)).
    2:{ intros id Hid. unfold schema_issues. rewrite Hcd by done.
        rewrite Forall_forall in Hschema. by destruct (Hschema id Hid) as [t ->]. }
    pose proof (forallb_fields_ids sec
      (λ id, bool_decide (schema_issues id fd = []))) as Hfa. fold ids in Hfa.
    destruct (flat_map _ ids) as [|e es] eqn:Hissues.
    + apply step_issues_nil in Hissues.
      exists ∅. rewrite Hfa, Hissues. by split.
    + assert (forallb (λ id, bool_decide (schema_issues id fd = [])) ids = false)
        as Hfalse.
      { apply not_true_is_false. intros Hall%step_issues_nil. congruence. }
      eexists. rewrite Hfa, Hfalse. simpl. split; [|reflexivity]. intros _ id.
      unfold errors_of_issues. rewrite fold_issues_lookup, <- Hissues.
      rewrite step_issues_last by done. rewrite lookup_empty.
      change (f_id <$> fields sec) with ids.
      destruct (bool_decide (id ∈ ids)); [|done].
      by destruct (last (schema_issues id fd)).
  - rewrite bool_decide_eq_false_2 by done. cbn -[fold_left].
    eexists. split; [|reflexivity]. intros _ id.
    rewrite fold_required_lookup, lookup_empty.
    by destruct (bool_decide (id ∈ m :: ms)).
Qed.

Lemma validateStep_outside st :
  section_at (currentStep st) = None → validateStep st = Throw TypeError.
Proof. intros H. unfold validateStep. by rewrite H. Qed.

(** [validateStep] changes nothing but the error map, and nothing at all
    when it returns [true]. *)
Lemma validateStep_frame st ok st1 :
  validateStep st = Normal (ok, st1) →
  formData st1 = formData st ∧ currentStep st1 = currentStep st
  ∧ status st1 = status st ∧ (ok = true → st1 = st).
Proof.
  destruct (section_at (currentStep st)) as [sec|] eqn:Hsec.
  - destruct (validateStep_section st sec Hsec) as (errs & _ & ->).
    intros [= <- <-]. destruct (step_passes sec (formData st)); naive_solver.
  - by rewrite validateStep_outside.
Qed.

(** C1.  [handleSubmit] runs the validation pass of the active step.  When
    the pass succeeds the status record becomes [reviewing] with the
    timestamp of the call and the review comment, and the step index is set
    to the last step (the status step); form values and errors are kept.
    When the pass fails, status, step index and form values are unchanged
    and only the error map may differ.  When the pass throws, the handler
    throws and no state is written. *)
Theorem handleSubmit_transition (now : jsstring) (st : AppState) :
  match validateStep st with
  | Normal (true, _) =>
      handleSubmit now st
      = Normal {| formData := formData st; currentStep := 3;
                  errors := errors st; status := REVIEWING now |}
  | Normal (false, st1) =>
      handleSubmit now st = Normal st1
      ∧ status st1 = status st ∧ currentStep st1 = currentStep st
      ∧ formData st1 = formData st
  | Throw e => handleSubmit now st = Throw e
  end.
Proof.
  unfold handleSubmit.
  destruct (validateStep st) as [[[] st1]|e] eqn:Hv; simpl; [| |done].
  - apply validateStep_frame in Hv as (_ & _ & _ & ->); done.
  - apply validateStep_frame in Hv as (? & ? & ? & _). done.
Qed.

(** C2.  On the review step (index 2) [formSections[currentStep]] is
    [undefined], so [validateStep] throws a [TypeError] whatever the form
    values are, and with it [handleNext] and [handleSubmit]: the pass does
    not return on that step. *)
Theorem review_step_throws (fd : gmap string FormValue)
    (errs : gmap string jsstring) (s : ApplicationStatus) (now : jsstring) :
  let st := {| formData := fd; currentStep := 2; errors := errs; status := s |} in
  validateStep st = Throw TypeError
  ∧ handleNext st = Throw TypeError
  ∧ handleSubmit now st = Throw TypeError.
Proof. done. Qed.

(** The review step is reached by advancing from the second data-entry
    step, and both of its buttons run the validation pass. *)
Example review_step_reached :
  ∃ st', handleNext (at_step 1 (case_data (text_of_length 50))) = Normal st'
    ∧ currentStep st' = 2%Z
    ∧ handleNext st' = Throw TypeError
    ∧ handleSubmit (str "2024-02-02T00:00:00.000Z") st' = Throw TypeError.
Proof. eexists. split; [vm_compute; reflexivity|]. repeat split. Qed.

(** C3 (amended).  On a data-entry step, [handleNext] returns; it advances
    (step index plus one, clamped to the last step, errors cleared) exactly
    when no required field of the step is missing or empty and the form
    schema raises no issue on any field of the step.  Otherwise the step is
    kept and the error map is replaced: when required fields are missing,
    by the required-message on exactly those fields; when none is missing,
    by the message of the last schema issue on exactly the fields that the
    schema rejects.  Form values and status are untouched. *)
Theorem handleNext_data_entry (st : AppState) (sec : FormSection) :
  section_at (currentStep st) = Some sec →
  ∃ st', handleNext st = Normal st'
    ∧ formData st' = formData st ∧ status st' = status st
    ∧ if step_passes sec (formData st)
      then currentStep st' = Z.min (currentStep st + 1) LAST_STEP ∧ errors st' = ∅
      else currentStep st' = currentStep st
           ∧ ∀ id, errors st' !! id = expected_error sec (formData st) id.
Proof.
  intros Hsec. unfold handleNext.
  destruct (validateStep_section st sec Hsec) as (errs & Herrs & ->). simpl.
  destruct (step_passes sec (formData st)); eexists; (split; [reflexivity|]);
    simpl; auto.
Qed.


Lemma handleNext_data_entry_witness :
  section_at (currentStep (at_step 0 (personal_data (str "short"))))
  = Some personalInformation
  ∧ ∃ st', handleNext (at_step 0 (personal_data (str "short"))) = Normal st'
    ∧ formData st' = personal_data (str "short")
    ∧ status st' = status (at_step 0 (personal_data (str "short")))
    ∧ currentStep st' = 0%Z
    ∧ ∀ id, errors st' !! id
            = expected_error personalInformation (personal_data (str "short")) id.
Proof.
  split; [reflexivity|].
  exact (handleNext_data_entry (at_step 0 (personal_data (str "short")))
           personalInformation eq_refl).
Defined.

(** C3, as stated, fails: with a valid name, a date of birth, the address
    "short" and an identity proof, every required field of the first step
    is present and the only field carrying a validation rule matches its
    pattern, yet [handleNext] stays on the step and reports the address. *)
Lemma advance_counterexample :
  spec_advance_ok personalInformation (personal_data (str "short")) = true
  ∧ ∃ st', handleNext (at_step 0 (personal_data (str "short"))) = Normal st'
    ∧ currentStep st' = 0%Z
    ∧ errors st' !! "address" = Some (str "Please enter a complete address").
Proof.
  split; [vm_compute; reflexivity|].
  eexists. split; [vm_compute; reflexivity|]. split; vm_compute; reflexivity.
Qed.

(** A missing field hides the schema failures of the other fields: with
    the name "A1" and no date of birth only the date of birth is reported. *)
Example missing_suppresses_schema_errors :
  ∃ st', handleNext (at_step 0 (<["name" := VStr (str "A1")]>
                                (delete "dob" (personal_data (str "12 Main Street")))))
         = Normal st'
    ∧ currentStep st' = 0%Z
    ∧ map_to_list (errors st') = [("dob", MSG_REQUIRED)].
Proof.
  eexists. split; [vm_compute; reflexivity|]. split; vm_compute; reflexivity.
Qed.

Example advance_from_first_step :
  ∃ st', handleNext (at_step 0 (personal_data (str "12 Main Street"))) = Normal st'
    ∧ currentStep st' = 1%Z ∧ errors st' = ∅.
Proof.
  eexists. split; [vm_compute; reflexivity|]. split; vm_compute; reflexivity.
Qed.

(** A submit that passes validation (here on the second data-entry step). *)
Example submit_passes :
  ∃ st', handleSubmit (str "2024-02-02T00:00:00.000Z")
           (at_step 1 (case_data (text_of_length 50))) = Normal st'
    ∧ status st' = REVIEWING (str "2024-02-02T00:00:00.000Z")
    ∧ currentStep st' = 3%Z.
Proof.
  eexists. split; [vm_compute; reflexivity|]. split; vm_compute; reflexivity.
Qed.

Example submit_fails :
  ∃ st', handleSubmit (str "2024-02-02T00:00:00.000Z")
           (at_step 1 (case_data (text_of_length 49))) = Normal st'
    ∧ st_status (status st') = pending
    ∧ currentStep st' = 1%Z
    ∧ map_to_list (errors st')
      = [("caseDescription", str "Please provide a detailed description")].
Proof.
  eexists. split; [vm_compute; reflexivity|]. repeat split; vm_compute; reflexivity.
Qed.

(** From the review step neither a complete form can be submitted. *)
Example submit_on_review_step :
  handleSubmit (str "2024-02-02T00:00:00.000Z")
    (at_step 2 (personal_data (str "12 Main Street") ∪ case_data (text_of_length 60)))
  = Throw TypeError.
Proof. reflexivity. Qed.

(** ** The debounced analyzer *)

Lemma analyzer_run_app evs1 evs2 st :
  analyzer_run (evs1 ++ evs2) st = analyzer_run evs2 (analyzer_run evs1 st).
Proof. apply fold_left_app. Qed.

Lemma run_effect_text (s : jsstring) :
  run_effect (Some (VStr s))
  = if 50 <? length s then Some (DEBOUNCE_MS, s) else None.
Proof.
  unfold run_effect. destruct s as [|c s]; [done|].
  by rewrite bool_decide_eq_false_2.
Qed.

(** A render that changes the description re-runs the effect. *)
Lemma render_change st v :
  v ≠ caseDescription st →
  analyzer_step (Render v) st
  = {| caseDescription := v; debounceTimer := run_effect v;
       issued := issued st; inFlight := inFlight st;
       isAnalyzing := isAnalyzing st; aiGuidance := aiGuidance st |}.
Proof. intros H. simpl. by rewrite bool_decide_eq_false_2. Qed.

Lemma analyzer_run_cons ev evs st :
  analyzer_run (ev :: evs) st = analyzer_run evs (analyzer_step ev st).
Proof. done. Qed.

Lemma elapse_idle st ms :
  debounceTimer st = None → analyzer_step (Elapse ms) st = st.
Proof. intros Ht. simpl. by rewrite Ht. Qed.

(** The timer fires: [analyzeCase] raises the flag and calls the service. *)
Lemma elapse_fires st r s ms :
  debounceTimer st = Some (r, s) → r ≤ ms →
  analyzer_step (Elapse ms) st
  = {| caseDescription := caseDescription st; debounceTimer := None;
       issued := issued st ++ [s];
       inFlight := inFlight st ++ [length (issued st)];
       isAnalyzing := true; aiGuidance := aiGuidance st |}.
Proof.
  intros Ht Hle. simpl. rewrite Ht.
  destruct (Nat.leb_spec r ms); [done|lia].
Qed.

Lemma elapse_waits st r s ms :
  debounceTimer st = Some (r, s) → ms < r →
  analyzer_step (Elapse ms) st
  = {| caseDescription := caseDescription st;
       debounceTimer := Some (r - ms, s);
       issued := issued st; inFlight := inFlight st;
       isAnalyzing := isAnalyzing st; aiGuidance := aiGuidance st |}.
Proof.
  intros Ht Hlt. simpl. rewrite Ht.
  destruct (Nat.leb_spec r ms); [lia|done].
Qed.

Lemma waits_without_timer (waits : list nat) st :
  debounceTimer st = None → analyzer_run (Elapse <$> waits) st = st.
Proof.
  intros Ht. induction waits as [|w waits IH]; [done|].
  rewrite fmap_cons, analyzer_run_cons. by rewrite elapse_idle.
Qed.

(** Waiting, in several stretches, with a timer of [r] ms for the text [s]
    pending: the request is made once the stretches add up to [r]. *)
Lemma waits_with_timer (waits : list nat) st r s :
  debounceTimer st = Some (r, s) → 0 < r →
  let st' := analyzer_run (Elapse <$> waits) st in
  issued st' = issued st ++ (if r <=? sum_list waits then [s] else [])
  ∧ caseDescription st' = caseDescription st
  ∧ ((r <=? sum_list waits) = true → debounceTimer st' = None).
Proof.
  revert st r. induction waits as [|w waits IH]; intros st r Ht Hr; cbv zeta.
  - simpl. destruct (Nat.leb_spec r 0); [lia|]. by rewrite app_nil_r.
  - rewrite fmap_cons, analyzer_run_cons. simpl sum_list.
    destruct (Nat.le_gt_cases r w) as [Hle|Hgt].
    + rewrite (elapse_fires st r s w) by done.
      rewrite waits_without_timer by done. simpl.
      destruct (Nat.leb_spec r (w + sum_list waits)); [done|lia].
    + rewrite (elapse_waits st r s w) by done.
      match goal with
      | |- context [analyzer_run _ ?x] =>
          destruct (IH x (r - w) eq_refl) as (Hi & Hc & Ht'); [lia|]
      end.
      cbv zeta in Hi, Hc, Ht'. rewrite Hi, Hc. simpl.
      destruct (Nat.leb_spec (r - w) (sum_list waits)),
               (Nat.leb_spec r (w + sum_list waits)); try lia; auto.
Qed.

(** C4 (amended).  After a render that changes the description to the text
    [s], and any number of waits with no further change, the analyzer has
    issued a request exactly when [s] is longer than 50 characters and the
    waits add up to the quiet period of 1000 ms; the request carries [s].
    A text of 50 characters or fewer never triggers a request. *)
Theorem debounce_fires_iff (st : AnalyzerState) (s : jsstring) (waits : list nat) :
  Some (VStr s) ≠ caseDescription st →
  issued (analyzer_run (Render (Some (VStr s)) :: (Elapse <$> waits)) st)
  = issued st
    ++ (if (50 <? length s) && (DEBOUNCE_MS <=? sum_list waits) then [s] else []).
Proof.
  intros Hch. rewrite analyzer_run_cons.
  rewrite render_change by done. rewrite run_effect_text.
  destruct (50 <? length s) eqn:Hlen.
  - match goal with
    | |- context [analyzer_run _ ?x] =>
        destruct (waits_with_timer waits x DEBOUNCE_MS s eq_refl) as (Hi & _);
          [unfold DEBOUNCE_MS; lia|]
    end.
    cbv zeta in Hi. rewrite Hi. done.
  - rewrite waits_without_timer by done. simpl. by rewrite app_nil_r.
Qed.

Lemma debounce_fires_iff_witness :
  issued (analyzer_run
            (Render (Some (VStr (text_of_length 51))) :: (Elapse <$> [400; 600]))
            (mount None))
  = [text_of_length 51].
Proof.
  exact (debounce_fires_iff (mount None) (text_of_length 51) [400; 600]
           ltac:(discriminate)).
Defined.

(** C4, as stated, fails at the threshold: a description of exactly 50
    characters, left unchanged for the quiet period and well beyond it,
    triggers no request. *)
Lemma debounce_threshold_counterexample :
  length (text_of_length 50) = 50
  ∧ issued (analyzer_run
              [Render (Some (VStr (text_of_length 50))); Elapse 1000; Elapse 5000]
              (mount None)) = [].
Proof. split; vm_compute; reflexivity. Qed.

Example debounce_not_before_deadline :
  issued (analyzer_run
            [Render (Some (VStr (text_of_length 51))); Elapse 999] (mount None)) = [].
Proof. vm_compute; reflexivity. Qed.

(** The same holds for the description the component is mounted with. *)
Lemma debounce_after_mount (s : jsstring) (waits : list nat) :
  issued (analyzer_run (Elapse <$> waits) (mount (Some (VStr s))))
  = if (50 <? length s) && (DEBOUNCE_MS <=? sum_list waits) then [s] else [].
Proof.
  unfold mount. rewrite run_effect_text.
  destruct (50 <? length s) eqn:Hlen.
  - match goal with
    | |- context [analyzer_run _ ?x] =>
        destruct (waits_with_timer waits x DEBOUNCE_MS s eq_refl) as (Hi & _);
          [unfold DEBOUNCE_MS; lia|]
    end.
    cbv zeta in Hi. by rewrite Hi.
  - by rewrite waits_without_timer.
Qed.

(** One rapid edit: a changing render followed by a gap shorter than the
    quiet period issues nothing. *)
Lemma rapid_edit_step st s gap :
  Some (VStr s) ≠ caseDescription st → gap < DEBOUNCE_MS →
  let st' := analyzer_run [Render (Some (VStr s)); Elapse gap] st in
  issued st' = issued st ∧ caseDescription st' = Some (VStr s)
  ∧ inFlight st' = inFlight st.
Proof.
  intros Hch Hgap. cbv zeta. rewrite !analyzer_run_cons.
  rewrite render_change by done. rewrite run_effect_text.
  destruct (50 <? length s).
  - by erewrite elapse_waits by (done || lia).
  - by rewrite elapse_idle.
Qed.

Lemma rapid_edits_issue_nothing (edits : list (jsstring * nat)) st :
  Forall (λ e, e.2 < DEBOUNCE_MS) edits →
  edits_change (caseDescription st) edits.*1 = true →
  let st' := analyzer_run (edit_events edits) st in
  issued st' = issued st
  ∧ caseDescription st' = default (caseDescription st) (Some ∘ VStr <$> last edits.*1)
  ∧ inFlight st' = inFlight st.
Proof.
  revert st. induction edits as [|[s gap] edits IH]; intros st Hgaps Hch; [done|].
  apply Forall_cons in Hgaps as [Hgap Hgaps].
  simpl in Hch. apply andb_true_iff in Hch as [Hne Hch].
  apply negb_true_iff, bool_decide_eq_false in Hne.
  change (edit_events ((s, gap) :: edits))
    with ([Render (Some (VStr s)); Elapse gap] ++ edit_events edits).
  rewrite analyzer_run_app.
  destruct (rapid_edit_step st s gap Hne Hgap) as (Hi & Hc & Hf).
  cbv zeta in *.
  set (st1 := analyzer_run [Render (Some (VStr s)); Elapse gap] st) in *.
  destruct (IH st1 Hgaps) as (Hi' & Hc' & Hf'); [by rewrite Hc|].
  cbv zeta in *. rewrite Hi', Hc', Hf', Hi, Hc, Hf. split; [done|]. split; [|done].
  rewrite fmap_cons. simpl fst. rewrite last_cons.
  by destruct (last edits.*1).
Qed.

Lemma edits_change_app prev l1 l2 :
  edits_change prev (l1 ++ l2)
  = edits_change prev l1
    && edits_change (default prev (Some ∘ VStr <$> last l1)) l2.
Proof.
  revert prev. induction l1 as [|s l1 IH]; intros prev; simpl; [done|].
  rewrite IH, andb_assoc. f_equal. rewrite last_cons. by destruct (last l1).
Qed.

(** C5 (amended).  A sequence of edits, each changing the description and
    each followed by less than the quiet period, then a last edit and a
    full quiet period: at most one request is issued, exactly one when the
    final text is longer than 50 characters and none otherwise; it carries
    the final text, the timers of the superseded edits never fire, and no
    timer is left pending. *)
Theorem rapid_edits_single_request (st : AnalyzerState)
    (edits : list (jsstring * nat)) (final : jsstring) (quiet : nat) :
  Forall (λ e, e.2 < DEBOUNCE_MS) edits →
  edits_change (caseDescription st) (edits.*1 ++ [final]) = true →
  DEBOUNCE_MS ≤ quiet →
  let st' := analyzer_run
               (edit_events edits ++ [Render (Some (VStr final)); Elapse quiet]) st in
  issued st' = issued st ++ request_for final
  ∧ debounceTimer st' = None
  ∧ caseDescription st' = Some (VStr final).
Proof.
  intros Hgaps Hch Hquiet. cbv zeta.
  rewrite edits_change_app in Hch. apply andb_true_iff in Hch as [Hch Hfin].
  simpl in Hfin. rewrite andb_true_r in Hfin.
  apply negb_true_iff, bool_decide_eq_false in Hfin.
  rewrite analyzer_run_app.
  destruct (rapid_edits_issue_nothing edits st Hgaps Hch) as (Hi & Hc & Hf).
  cbv zeta in *. set (st1 := analyzer_run (edit_events edits) st) in *.
  rewrite <- Hc in Hfin.
  rewrite !analyzer_run_cons. rewrite render_change by done.
  rewrite run_effect_text. unfold request_for.
  destruct (50 <? length final).
  - erewrite elapse_fires by (done || lia). simpl. by rewrite Hi.
  - rewrite elapse_idle by done. simpl. by rewrite Hi, app_nil_r.
Qed.

Lemma rapid_edits_single_request_witness :
  issued (analyzer_run
            (edit_events [(text_of_length 10, 100); (text_of_length 60, 999)]
             ++ [Render (Some (VStr (text_of_length 70))); Elapse 1000])
            (mount None))
  = [text_of_length 70]
  ∧ debounceTimer (analyzer_run
            (edit_events [(text_of_length 10, 100); (text_of_length 60, 999)]
             ++ [Render (Some (VStr (text_of_length 70))); Elapse 1000])
            (mount None)) = None
  ∧ caseDescription (analyzer_run
            (edit_events [(text_of_length 10, 100); (text_of_length 60, 999)]
             ++ [Render (Some (VStr (text_of_length 70))); Elapse 1000])
            (mount None)) = Some (VStr (text_of_length 70)).
Proof.
  apply (rapid_edits_single_request (mount None)
           [(text_of_length 10, 100); (text_of_length 60, 999)]
           (text_of_length 70) 1000).
  - repeat constructor; simpl; unfold DEBOUNCE_MS; lia.
  - vm_compute; reflexivity.
  - unfold DEBOUNCE_MS; lia.
Defined.

(** C5, as stated, fails when the text the edits settle on is short: two
    rapid edits ending in a two-character description fire no request at
    all, however long the quiet period. *)
Lemma rapid_edits_counterexample :
  issued (analyzer_run
            (edit_events [(str "a", 100)]
             ++ [Render (Some (VStr (str "ab"))); Elapse 1000; Elapse 4000])
            (mount None)) = [].
Proof. vm_compute; reflexivity. Qed.

(** Renders that repeat the current text do not restart the timer. *)
Example repeated_text_keeps_timer :
  issued (analyzer_run
            [Render (Some (VStr (text_of_length 60))); Elapse 900;
             Render (Some (VStr (text_of_length 60))); Elapse 100]
            (mount None)) = [text_of_length 60].
Proof. vm_compute; reflexivity. Qed.

(** C6 (amended).  When the promise of any request in flight resolves, its
    result is stored as the guidance and the busy flag is cleared, whatever
    the description, the timer and the other requests are by then: the
    response that settles last is the one that stays. *)
Theorem late_result_is_written (st : AnalyzerState) (id : nat) (g : LegalGuidance) :
  id ∈ inFlight st →
  let st' := analyzer_step (Settle id (Normal g)) st in
  aiGuidance st' = Some g
  ∧ isAnalyzing st' = false
  ∧ caseDescription st' = caseDescription st
  ∧ debounceTimer st' = debounceTimer st
  ∧ issued st' = issued st
  ∧ id ∉ inFlight st'.
Proof.
  intros Hin. simpl. rewrite bool_decide_eq_true_2 by done. simpl.
  repeat split. intros [? ?]%list_elem_of_filter. done.
Qed.

Lemma late_result_is_written_witness :
  aiGuidance (analyzer_step (Settle 0 (Normal (sample_guidance "late"))) analyzing_state)
  = Some (sample_guidance "late")
  ∧ isAnalyzing (analyzer_step (Settle 0 (Normal (sample_guidance "late"))) analyzing_state)
    = false
  ∧ caseDescription (analyzer_step (Settle 0 (Normal (sample_guidance "late"))) analyzing_state)
    = caseDescription analyzing_state
  ∧ debounceTimer (analyzer_step (Settle 0 (Normal (sample_guidance "late"))) analyzing_state)
    = debounceTimer analyzing_state
  ∧ issued (analyzer_step (Settle 0 (Normal (sample_guidance "late"))) analyzing_state)
    = issued analyzing_state
  ∧ 0 ∉ inFlight (analyzer_step (Settle 0 (Normal (sample_guidance "late"))) analyzing_state).
Proof.
  apply (late_result_is_written analyzing_state 0 (sample_guidance "late")).
  vm_compute. constructor.
Defined.

(** C6, as stated, fails: after two analysis cycles, the response to the
    first request arrives last and is stored, although the description has
    changed since and the response to the newer request had already been
    stored. *)
Lemma stale_result_counterexample :
  issued (analyzer_run stale_trace (mount None))
  = [text_of_length 60; text_of_length 70]
  ∧ caseDescription (analyzer_run stale_trace (mount None))
    = Some (VStr (text_of_length 70))
  ∧ aiGuidance (analyzer_run (take 5 stale_trace) (mount None))
    = Some (sample_guidance "guidance for the second text")
  ∧ aiGuidance (analyzer_run stale_trace (mount None))
    = Some (sample_guidance "guidance for the first text").
Proof. repeat split; vm_compute; reflexivity. Qed.

(** The flag is cleared by the first response although a second request is
    still in flight. *)
Example flag_cleared_while_in_flight :
  isAnalyzing (analyzer_run (take 5 stale_trace) (mount None)) = false
  ∧ inFlight (analyzer_run (take 5 stale_trace) (mount None)) = [0].
Proof. split; vm_compute; reflexivity. Qed.

(** ** The guidance client *)

Lemma try_catch_returns {A} (body : completion A) (handler : exn → completion A) :
  (∀ e, ∃ a, handler e = Normal a) → ∃ a, try_catch body handler = Normal a.
Proof. intros H. destruct body as [a|e]; simpl; eauto. Qed.

Lemma analyzeCaseDescription_returns env new_client JSON_parse description :
  ∃ g, analyzeCaseDescription env new_client JSON_parse description = Normal g.
Proof.
  unfold analyzeCaseDescription.
  destruct (isConfigured env); [|eauto].
  destruct (client env new_client); [|eauto].
  apply try_catch_returns. eauto.
Qed.

Lemma analyzeCaseDescription_unavailable env new_client JSON_parse description :
  isConfigured env = false ∨ client env new_client = None →
  analyzeCaseDescription env new_client JSON_parse description
  = Normal GUIDANCE_UNAVAILABLE.
Proof.
  unfold analyzeCaseDescription. intros [-> | ->]; [done|].
  by destruct (isConfigured env).
Qed.

Lemma analyzeCaseDescription_fallback env new_client JSON_parse description c e :
  isConfigured env = true → client env new_client = Some c →
  getChatCompletions c (deploymentName env) (analysis_messages description)
    ANALYSIS_OPTIONS = Throw e →
  analyzeCaseDescription env new_client JSON_parse description
  = Normal GUIDANCE_FALLBACK.
Proof.
  unfold analyzeCaseDescription. intros -> -> Hcall. cbv zeta. by rewrite Hcall.
Qed.

(** A response without usable content also ends in the fallback. *)
Lemma analyzeCaseDescription_no_content env new_client JSON_parse description c :
  isConfigured env = true → client env new_client = Some c →
  getChatCompletions c (deploymentName env) (analysis_messages description)
    ANALYSIS_OPTIONS = Normal (JObj [("choices", JArr [])]) →
  analyzeCaseDescription env new_client JSON_parse description
  = Normal GUIDANCE_FALLBACK.
Proof.
  unfold analyzeCaseDescription. intros -> -> Hcall. cbv zeta. by rewrite Hcall.
Qed.

Lemma settle_clears_flag st id outcome :
  id ∈ inFlight st →
  isAnalyzing (analyzer_step (Settle id outcome) st) = false.
Proof. intros Hin. simpl. by rewrite bool_decide_eq_true_2. Qed.

(** C7.  [analyzeCaseDescription] always returns a payload: the
    unavailable-notice when the service is not configured or the client
    could not be constructed, the fallback when the call of a configured
    client is rejected.  In the component, whatever way the promise of a
    request in flight settles, the busy flag is false afterwards, and with
    the result of [analyzeCaseDescription] some guidance is stored. *)
Theorem guidance_never_throws (env : Env)
    (new_client : jsstring → jsstring → completion OpenAIClient)
    (JSON_parse : jsval → completion jsval) (description : jsstring)
    (st : AnalyzerState) (id : nat) :
  id ∈ inFlight st →
  let result := analyzeCaseDescription env new_client JSON_parse description in
  (∃ g, result = Normal g)
  ∧ (isConfigured env = false ∨ client env new_client = None →
     result = Normal GUIDANCE_UNAVAILABLE)
  ∧ (∀ c e, isConfigured env = true → client env new_client = Some c →
       getChatCompletions c (deploymentName env) (analysis_messages description)
         ANALYSIS_OPTIONS = Throw e →
       result = Normal GUIDANCE_FALLBACK)
  ∧ (∀ outcome, isAnalyzing (analyzer_step (Settle id outcome) st) = false)
  ∧ ∃ g, aiGuidance (analyzer_step (Settle id result) st) = Some g.
Proof.
  intros Hin result. split; [apply analyzeCaseDescription_returns|].
  split; [apply analyzeCaseDescription_unavailable|].
  split; [intros; by eapply analyzeCaseDescription_fallback|].
  split; [intros; by apply settle_clears_flag|].
  destruct (analyzeCaseDescription_returns env new_client JSON_parse description)
    as [g Hg].
  exists g. subst result. rewrite Hg. simpl. by rewrite bool_decide_eq_true_2.
Qed.

Lemma guidance_never_throws_witness :
  (∃ g, analyzeCaseDescription full_env (λ _ _, Normal failing_client) parse_prose
          (text_of_length 60) = Normal g)
  ∧ (isConfigured full_env = false
     ∨ client full_env (λ _ _, Normal failing_client) = None →
     analyzeCaseDescription full_env (λ _ _, Normal failing_client) parse_prose
       (text_of_length 60) = Normal GUIDANCE_UNAVAILABLE)
  ∧ (∀ c e, isConfigured full_env = true →
       client full_env (λ _ _, Normal failing_client) = Some c →
       getChatCompletions c (deploymentName full_env)
         (analysis_messages (text_of_length 60)) ANALYSIS_OPTIONS = Throw e →
       analyzeCaseDescription full_env (λ _ _, Normal failing_client) parse_prose
         (text_of_length 60) = Normal GUIDANCE_FALLBACK)
  ∧ (∀ outcome, isAnalyzing (analyzer_step (Settle 0 outcome) analyzing_state) = false)
  ∧ ∃ g, aiGuidance (analyzer_step
           (Settle 0 (analyzeCaseDescription full_env (λ _ _, Normal failing_client)
                        parse_prose (text_of_length 60))) analyzing_state) = Some g.
Proof.
  apply (guidance_never_throws full_env (λ _ _, Normal failing_client) parse_prose
           (text_of_length 60) analyzing_state 0).
  vm_compute. constructor.
Defined.

Example guidance_unconfigured :
  analyzeCaseDescription no_env (λ _ _, Normal failing_client) parse_prose
    (text_of_length 60) = Normal GUIDANCE_UNAVAILABLE.
Proof. reflexivity. Qed.

Example guidance_client_not_constructed :
  analyzeCaseDescription full_env (λ _ _, Throw TypeError) parse_prose
    (text_of_length 60) = Normal GUIDANCE_UNAVAILABLE.
Proof. reflexivity. Qed.

Example guidance_call_rejected :
  analyzeCaseDescription full_env (λ _ _, Normal failing_client) parse_prose
    (text_of_length 60) = Normal GUIDANCE_FALLBACK.
Proof. reflexivity. Qed.

Example guidance_plain_text_answer :
  analyzeCaseDescription full_env
    (λ _ _, Normal (answering_client (JStr (str "File a civil suit."))))
    parse_prose (text_of_length 60)
  = Normal {| explanation := JStr (str "File a civil suit.");
              requirements := JArr []; suggestions := JArr [] |}.
Proof. reflexivity. Qed.

Example guidance_empty_answer :
  analyzeCaseDescription full_env
    (λ _ _, Normal (answering_client (JStr []))) parse_prose (text_of_length 60)
  = Normal GUIDANCE_FALLBACK.
Proof. reflexivity. Qed.

(** ** SpeechInput *)
(** C9 (amended).  Without a recognition handle [toggleListening] does not
    throw and starts or stops nothing; it still flips the listening flag. *)
Theorem toggle_without_recognition (st : SpeechState) :
  recognition st = None →
  toggleListening st
  = Normal {| isListening := negb (isListening st); recognition := None;
              selectedLanguage := selectedLanguage st;
              isTranslating := isTranslating st |}.
Proof. intros H. unfold toggleListening. rewrite H. by destruct (isListening st). Qed.

Lemma toggle_without_recognition_witness :
  toggleListening (init_recognition false speech_initial)
  = Normal {| isListening := true; recognition := None;
              selectedLanguage := str "hi-IN"; isTranslating := false |}.
Proof.
  exact (toggle_without_recognition (init_recognition false speech_initial) eq_refl).
Defined.

(** C9, as stated, fails in its second half: without a recognition handle
    the listen control does not throw, but the listening flag flips. *)
Lemma toggle_counterexample :
  recognition (init_recognition false speech_initial) = None
  ∧ isListening (init_recognition false speech_initial) = false
  ∧ ∃ st', toggleListening (init_recognition false speech_initial) = Normal st'
      ∧ isListening st' = true.
Proof. split; [done|]. split; [done|]. eexists. split; reflexivity. Qed.


Lemma upload_without_file (id : string) (st : AppState) :
  handleDrop None = [] ∧ handleDrop (Some []) = []
  ∧ handleFileChange None = [] ∧ handleFileChange (Some []) = [].
Proof. done. Qed.

Example upload_at_the_limit :
  handleDrop (Some [{| file_name := str "a.pdf"; file_size := 10485760 |}])
  = [OnChange {| file_name := str "a.pdf"; file_size := 10485760 |}]
  ∧ handleFileChange (Some [{| file_name := str "a.pdf"; file_size := 10485761 |}])
    = [Alert (str "File size should not exceed 10MB"); ResetInput]
  ∧ apply_upload "idProof"
      (handleDrop (Some [{| file_name := str "a.pdf"; file_size := 10485761 |}]))
      (initialState []) = initialState [].
Proof. repeat split. Qed.

(** ** Field extraction *)

Lemma fold_left_ext {A B} (f g : A → B → A) (l : list B) (a : A) :
  (∀ a b, f a b = g a b) → fold_left f l a = fold_left g l a.
Proof.
  intros Hext. revert a. induction l as [|b l IH]; intros a; simpl; [done|].
  by rewrite Hext, IH.
Qed.

Lemma findIndex_existsb {A} (p : A → bool) (l : list A) :
  existsb p l = false → findIndex p l = None.
Proof.
  induction l as [|x l IH]; simpl; [done|].
  destruct (p x); simpl; [done|]. intros H. by rewrite IH.
Qed.

Lemma extract_fallback_table words st :
  extract_fallback words st = apply_table indexOf words fieldMappings st.
Proof.
  unfold extract_fallback, apply_table. apply fold_left_ext. intros a [field kws].
  apply fold_left_ext. intros b kw. unfold apply_keyword, keyword_value. simpl.
  destruct (array_includes kw words) eqn:Hinc.
  - destruct (indexOf kw words) as [i|]; [|done].
    by destruct (truthy_word (words !! (i + 1))).
  - unfold indexOf. by rewrite findIndex_existsb.
Qed.

Lemma extract_translated_table toLowerCase words st :
  extract_translated toLowerCase words st
  = apply_table (find_containing toLowerCase) words fieldMappings st.
Proof.
  unfold extract_translated, apply_table. apply fold_left_ext. intros a [field kws].
  apply fold_left_ext. intros b kw.
  unfold apply_keyword, keyword_value, find_containing. simpl.
  destruct (findIndex _ words) as [i|]; [|done].
  by destruct (truthy_word (words !! (i + 1))).
Qed.

Lemma last_some_snoc {A B} (f : A → option B) (l : list A) (x : A) :
  last_some f (l ++ [x])
  = match f x with Some y => Some y | None => last_some f l end.
Proof.
  unfold last_some. rewrite omap_app, last_app. simpl.
  by destruct (f x).
Qed.

(** The keywords of one row: the last one that yields a value decides. *)
Lemma apply_row find words field (kws : list jsstring) st :
  let st' := fold_left (apply_keyword find words field) kws st in
  currentStep st' = currentStep st ∧ status st' = status st
  ∧ match last_some (keyword_value find words) kws with
    | Some v => formData st' = <[field := VStr v]> (formData st)
                ∧ errors st' = delete field (errors st)
    | None => formData st' = formData st ∧ errors st' = errors st
    end.
Proof.
  cbv zeta. induction kws as [|kw kws IH] using rev_ind.
  { cbn. auto. }
  rewrite fold_left_app, last_some_snoc. cbn [fold_left].
  destruct IH as (Hs & Hst & IH).
  set (st1 := fold_left (apply_keyword find words field) kws st) in *.
  unfold apply_keyword.
  destruct (keyword_value find words kw) as [v|]; [|auto].
  unfold handleInputChange. simpl. rewrite Hs, Hst. split; [done|]. split; [done|].
  destruct (last_some _ kws) as [v'|]; destruct IH as [-> ->].
  - by rewrite insert_insert_eq, delete_delete_eq.
  - done.
Qed.

Lemma assoc_lookup_None {A} (k : string) (l : list (string * A)) :
  k ∉ l.*1 → assoc_lookup k l = None.
Proof.
  induction l as [|[k' v] l IH]; simpl; [done|].
  intros [Hne Hl]%not_elem_of_cons. by rewrite bool_decide_eq_false_2, IH.
Qed.

Lemma apply_table_field find words (table : list (string * list jsstring)) st field :
  NoDup table.*1 →
  let st' := apply_table find words table st in
  currentStep st' = currentStep st ∧ status st' = status st
  ∧ match assoc_lookup field table ≫= last_some (keyword_value find words) with
    | Some v => formData st' !! field = Some (VStr v) ∧ errors st' !! field = None
    | None => formData st' !! field = formData st !! field
              ∧ errors st' !! field = errors st !! field
    end.
Proof.
  cbv zeta. revert st. induction table as [|[f kws] table IH]; intros st Hnd; [done|].
  apply NoDup_cons in Hnd as [Hf Hnd]. unfold apply_table in *. simpl.
  destruct (apply_row find words f kws st) as (Hs1 & Hst1 & Hrow). cbv zeta in *.
  set (st1 := fold_left (apply_keyword find words f) kws st) in *.
  destruct (IH st1 Hnd) as (Hs & Hst & Hfield).
  rewrite Hs, Hst. split; [done|]. split; [done|].
  destruct (decide (field = f)) as [->|Hne].
  - rewrite bool_decide_eq_true_2 by done. rewrite assoc_lookup_None in Hfield by done.
    simpl in *. destruct Hfield as [-> ->].
    destruct (last_some _ kws) as [v|]; destruct Hrow as [-> ->].
    + by rewrite lookup_insert_eq, lookup_delete_eq.
    + done.
  - rewrite bool_decide_eq_false_2 by done.
    assert (formData st1 !! field = formData st !! field
            ∧ errors st1 !! field = errors st !! field) as [Hfd Her].
    { destruct (last_some _ kws) as [v|]; destruct Hrow as [-> ->]; [|done].
      by rewrite lookup_insert_ne, lookup_delete_ne. }
    by rewrite <- Hfd, <- Her.
Qed.

Lemma fieldMappings_NoDup : NoDup fieldMappings.*1.
Proof. apply (bool_decide_unpack _). vm_compute. exact I. Qed.

(** Which of the two loops [handleSpeechInput] runs. *)
Lemma handleSpeechInput_path toLowerCase axios_post transcript st :
  handleSpeechInput toLowerCase axios_post transcript st
  = Normal (apply_table (extraction_input toLowerCase axios_post transcript).1
              (extraction_input toLowerCase axios_post transcript).2
              fieldMappings st).
Proof.
  unfold handleSpeechInput, extraction_input, translated_text.
  destruct (translateText axios_post transcript (str "auto") (str "en"))
    as [[| | | | |items|props]|e]; simpl;
    try by rewrite extract_fallback_table.
  destruct (assoc_lookup "translatedText" props) as [[| | | |s| |]|]; simpl;
    try by rewrite extract_fallback_table.
  by rewrite extract_translated_table.
Qed.

(** C8 (amended).  [handleSpeechInput] never throws.  It scans the tokens
    obtained by cutting the lower-cased text at single spaces (the
    translated text, or the transcript itself when the translation fails).
    A keyword is located at the first token containing it (translated text)
    or equal to it (transcript); it yields the join of all tokens strictly
    after that position when the next token exists and is not empty, and
    nothing otherwise.  Each field of the table is set to the value of the
    last keyword of its row that yields one, and its error is cleared; a
    field with no yielding keyword, and everything else in the state, is
    left as it was. *)
Theorem speech_extraction (toLowerCase : jsstring → jsstring)
    (axios_post : jsstring → jsval → jsval → completion jsval)
    (transcript : jsstring) (st : AppState) :
  let find := (extraction_input toLowerCase axios_post transcript).1 in
  let words := (extraction_input toLowerCase axios_post transcript).2 in
  ∃ st', handleSpeechInput toLowerCase axios_post transcript st = Normal st'
    ∧ currentStep st' = currentStep st ∧ status st' = status st
    ∧ ∀ field,
        match extracted_value find words field with
        | Some v => formData st' !! field = Some (VStr v)
                    ∧ errors st' !! field = None
        | None => formData st' !! field = formData st !! field
                  ∧ errors st' !! field = errors st !! field
        end.
Proof.
  cbv zeta. rewrite handleSpeechInput_path. eexists. split; [reflexivity|].
  set (find := (extraction_input toLowerCase axios_post transcript).1).
  set (words := (extraction_input toLowerCase axios_post transcript).2).
  destruct (apply_table_field find words fieldMappings st "name" fieldMappings_NoDup)
    as (Hs & Hst & _).
  split; [done|]. split; [done|]. intros field.
  by destruct (apply_table_field find words fieldMappings st field fieldMappings_NoDup)
    as (_ & _ & H).
Qed.

(** C8, as stated, fails on consecutive spaces: with the translation
    service down, the transcript "name  alice" is cut into the tokens
    "name", "" and "alice"; the keyword is found at position 0, it is not
    the last token, and the tokens after it join to " alice", yet the name
    field is not set. *)
Lemma extraction_counterexample :
  split (ascii_toLowerCase (str "name  alice")) = [str "name"; []; str "alice"]
  ∧ indexOf (str "name") (split (ascii_toLowerCase (str "name  alice"))) = Some 0
  ∧ join (drop 1 (split (ascii_toLowerCase (str "name  alice")))) = str " alice"
  ∧ ∃ st', handleSpeechInput ascii_toLowerCase axios_down (str "name  alice")
             (initialState []) = Normal st'
      ∧ formData st' !! "name" = None.
Proof.
  split; [vm_compute; reflexivity|]. split; [vm_compute; reflexivity|].
  split; [vm_compute; reflexivity|].
  eexists. split; vm_compute; reflexivity.
Qed.

(** The transcript of the specification's example, untranslated: each
    field takes everything after its keyword. *)
Example extraction_name_and_address :
  ∃ st', handleSpeechInput ascii_toLowerCase axios_down
           (str "my name is Alice and my address is 12 Main Street")
           (initialState []) = Normal st'
    ∧ formData st' !! "name"
      = Some (VStr (str "is alice and my address is 12 main street"))
    ∧ formData st' !! "address" = Some (VStr (str "is 12 main street"))
    ∧ formData st' !! "caseDescription" = None.
Proof. eexists. repeat split; vm_compute; reflexivity. Qed.

(** On translated text a keyword matches any token that contains it. *)
Example extraction_substring_match :
  ∃ st', handleSpeechInput ascii_toLowerCase axios_echo (str "surname is bob")
           (initialState []) = Normal st'
    ∧ formData st' !! "name" = Some (VStr (str "is bob")).
Proof. eexists. split; vm_compute; reflexivity. Qed.

(** Of two keywords of one field the later one in the table decides. *)
Example extraction_last_keyword_wins :
  ∃ st', handleSpeechInput ascii_toLowerCase axios_down
           (str "description of my case is theft") (initialState []) = Normal st'
    ∧ formData st' !! "caseDescription" = Some (VStr (str "of my case is theft")).
Proof. eexists. split; vm_compute; reflexivity. Qed.

Example extraction_keyword_last :
  ∃ st', handleSpeechInput ascii_toLowerCase axios_down (str "my name")
           (initialState []) = Normal st'
    ∧ formData st' = ∅.
Proof. eexists. split; vm_compute; reflexivity. Qed.

(** ** Further properties of the wizard controller *)

(** X1.  Setting a field stores the value under its id and clears the error
    of that field only; the other values and errors, the step and the
    status are untouched. *)
Theorem handleInputChange_sets_field (id : string) (v : FormValue) (st : AppState) :
  formData (handleInputChange id v st) !! id = Some v
  ∧ errors (handleInputChange id v st) !! id = None
  ∧ (∀ other, other ≠ id →
       formData (handleInputChange id v st) !! other = formData st !! other
       ∧ errors (handleInputChange id v st) !! other = errors st !! other)
  ∧ currentStep (handleInputChange id v st) = currentStep st
  ∧ status (handleInputChange id v st) = status st.
Proof.
  unfold handleInputChange. simpl.
  rewrite lookup_insert_eq, lookup_delete_eq. repeat split; try done.
  - by rewrite lookup_insert_ne.
  - by rewrite lookup_delete_ne.
Qed.

(** Going back never fails: it clears the errors and decrements the step
    index, clamped at 0; values and status are kept. *)
Theorem handlePrevious_clears_errors (st : AppState) :
  errors (handlePrevious st) = ∅
  ∧ currentStep (handlePrevious st) = Z.max (currentStep st - 1) 0
  ∧ (0 ≤ currentStep (handlePrevious st))%Z
  ∧ formData (handlePrevious st) = formData st
  ∧ status (handlePrevious st) = status st.
Proof. unfold handlePrevious. simpl. repeat split. lia. Qed.

(** X3.  The step index stays within 0..3 under the three navigation
    handlers. *)
Theorem step_index_in_range (st : AppState) (now : jsstring) :
  (0 ≤ currentStep st ≤ 3)%Z →
  (0 ≤ currentStep (handlePrevious st) ≤ 3)%Z
  ∧ (∀ st', handleNext st = Normal st' → (0 ≤ currentStep st' ≤ 3)%Z)
  ∧ (∀ st', handleSubmit now st = Normal st' → (0 ≤ currentStep st' ≤ 3)%Z).
Proof.
  intros Hr. split; [unfold handlePrevious; simpl; lia|].
  unfold handleNext, handleSubmit.
  destruct (validateStep st) as [[ok st1]|e] eqn:Hv; simpl; [|done].
  apply validateStep_frame in Hv as (_ & Hs & _).
  change LAST_STEP with 3%Z.
  destruct ok; split; intros st' [= <-]; simpl; lia.
Qed.

Lemma step_index_in_range_witness :
  (0 ≤ currentStep (handlePrevious (at_step 0 ∅)) ≤ 3)%Z
  ∧ (∀ st', handleNext (at_step 0 ∅) = Normal st' → (0 ≤ currentStep st' ≤ 3)%Z)
  ∧ (∀ st', handleSubmit [] (at_step 0 ∅) = Normal st' → (0 ≤ currentStep st' ≤ 3)%Z).
Proof. apply (step_index_in_range (at_step 0 ∅) []). simpl. lia. Defined.

(** * Further properties *)

(** ** Navigation through the rendered controls *)

Lemma handleNext_step st st' :
  handleNext st = Normal st' →
  (0 ≤ currentStep st < 2)%Z
  ∧ (currentStep st' = currentStep st ∨ currentStep st' = currentStep st + 1)%Z
  ∧ status st' = status st ∧ formData st' = formData st.
Proof.
  unfold handleNext.
  destruct (section_at (currentStep st)) as [sec|] eqn:Hsec.
  - pose proof (section_at_step _ _ Hsec) as Hr.
    destruct (validateStep_section st sec Hsec) as (errs & _ & ->). simpl.
    change LAST_STEP with 3%Z.
    destruct (step_passes sec (formData st)); intros [= <-]; simpl;
      (split; [lia|]); (split; [lia|done]).
  - by rewrite validateStep_outside.
Qed.

Lemma handleSubmit_review st now :
  currentStep st = 2%Z → handleSubmit now st = Throw TypeError.
Proof.
  intros H. unfold handleSubmit. rewrite validateStep_outside; [done|].
  by rewrite H.
Qed.

Lemma perform_invariant st a :
  (0 ≤ currentStep st ≤ 2)%Z →
  (0 ≤ currentStep (perform st a) ≤ 2)%Z ∧ status (perform st a) = status st.
Proof.
  intros Hr. unfold perform, rendered.
  change (Z.of_nat (length steps)) with 4%Z.
  destruct a as [id v| | |now]; simpl.
  - done.
  - destruct (Z.ltb_spec 0 (currentStep st)); simpl; [|done]. split; [lia|done].
  - destruct (Z.ltb_spec (currentStep st) (4 - 1)); [|done].
    destruct (handleNext st) as [st'|e] eqn:Hn; simpl; [|done].
    apply handleNext_step in Hn as (? & ? & ? & ?). split; [lia|done].
  - destruct (Z.eqb_spec (currentStep st) (4 - 2)) as [Heq|]; [|done].
    rewrite handleSubmit_review by (rewrite Heq; reflexivity). done.
Qed.

(** X4.  Through field edits and the Previous, Next and Submit buttons, each
    pressed only while the page renders it, the wizard started from its
    initial state never gets past the review step and its status record
    never changes: the status step and the [reviewing] status are out of
    reach of the buttons. *)
Theorem buttons_never_submit (now : jsstring) (actions : list UserAction) :
  (0 ≤ currentStep (fold_left perform actions (initialState now)) ≤ 2)%Z
  ∧ status (fold_left perform actions (initialState now))
    = status (initialState now).
Proof.
  induction actions as [|a actions IH] using rev_ind; [done|].
  rewrite fold_left_app. simpl.
  destruct IH as [Hr Hs].
  destruct (perform_invariant _ a Hr) as [Hr' Hs']. split; [done|].
  by rewrite Hs'.
Qed.

(** X2.  When [handleNext] has advanced, [handlePrevious] leads back to the
    step it came from, with the form values and the status as before and an
    empty error map. *)
Theorem next_then_previous (st st' : AppState) :
  handleNext st = Normal st' →
  currentStep st' = (currentStep st + 1)%Z →
  handlePrevious st'
  = {| formData := formData st; currentStep := currentStep st;
       errors := ∅; status := status st |}.
Proof.
  intros Hn Hstep.
  apply handleNext_step in Hn as (Hr & _ & Hst & Hfd).
  unfold handlePrevious, setErrors, setCurrentStep. simpl.
  rewrite Hfd, Hst, Hstep. f_equal. lia.
Qed.

Lemma next_then_previous_witness :
  handlePrevious (state_after valid_personal_state (handleNext valid_personal_state))
  = {| formData := formData valid_personal_state;
       currentStep := currentStep valid_personal_state;
       errors := ∅; status := status valid_personal_state |}.
Proof.
  apply (next_then_previous valid_personal_state
           (state_after valid_personal_state (handleNext valid_personal_state))).
  - vm_compute. reflexivity.
  - vm_compute. reflexivity.
Defined.

(** ** Invariants of the debounced analyzer *)

Lemma run_effect_Some v r s :
  run_effect v = Some (r, s) → v = Some (VStr s) ∧ 50 < length s ∧ r = DEBOUNCE_MS.
Proof.
  destruct v as [[t|f]|]; simpl; try done.
  destruct (negb (bool_decide (t = []))); simpl; [|done].
  destruct (Nat.ltb_spec 50 (length t)); [|done].
  intros [= <- <-]. auto.
Qed.

Lemma mount_ok v : analyzer_ok (mount v).
Proof.
  unfold analyzer_ok, mount. simpl. split; [constructor|]. split.
  - intros r s H%run_effect_Some. unfold DEBOUNCE_MS in *. naive_solver lia.
  - split; [constructor|]. split; [constructor|done].
Qed.

Lemma analyzer_step_ok ev st : analyzer_ok st → analyzer_ok (analyzer_step ev st).
Proof.
  intros Hok. pose proof Hok as (Hiss & Htimer & Hnd & Hids & Hflag).
  destruct ev as [v|ms|id outcome].
  - simpl. case_bool_decide; [exact Hok|].
    unfold analyzer_ok. simpl. split; [done|]. split; [|done].
    intros r s He%run_effect_Some. unfold DEBOUNCE_MS in *. naive_solver lia.
  - simpl. destruct (debounceTimer st) as [[r s]|] eqn:Ht; [|exact Hok].
    destruct (Htimer r s eq_refl) as (Hd & Hlen & Hr).
    destruct (Nat.leb_spec r ms); unfold analyzer_ok; simpl.
    + split; [apply Forall_app; split; [done|by constructor]|].
      split; [done|]. split.
      { apply NoDup_app. split; [done|]. split; [|apply NoDup_singleton].
        intros i Hi [->|[]%elem_of_nil]%elem_of_cons.
        rewrite Forall_forall in Hids. specialize (Hids _ Hi). lia. }
      split.
      { rewrite length_app. simpl. apply Forall_app. split.
        - eapply Forall_impl; [exact Hids|]. simpl. lia.
        - constructor; [lia|constructor]. }
      intros _. by destruct (inFlight st).
    + split; [done|]. split; [|done].
      intros r' s' [= <- <-]. split; [done|]. split; [done|lia].
  - simpl. case_bool_decide; [|exact Hok].
    unfold analyzer_ok. simpl. split; [done|]. split; [done|].
    split; [by apply NoDup_filter|]. split; [|done].
    rewrite Forall_forall in *. intros i [_ Hi]%list_elem_of_filter. by apply Hids.
Qed.

(** X5.  In every state the analyzer reaches from its first render, by any
    sequence of renders, waits and settled requests: every request made
    carries a text longer than 50 characters; a pending timer is for the
    description currently rendered and has between 1 and 1000 ms left; the
    requests in flight are distinct requests that were made; and the busy
    flag is up only while some request is in flight. *)
Theorem analyzer_invariants (v : option FormValue) (evs : list AnalyzerEvent) :
  let st := analyzer_run evs (mount v) in
  Forall (λ s, 50 < length s) (issued st)
  ∧ (∀ r s, debounceTimer st = Some (r, s) →
       caseDescription st = Some (VStr s) ∧ 50 < length s ∧ 0 < r ≤ DEBOUNCE_MS)
  ∧ NoDup (inFlight st)
  ∧ Forall (λ i, i < length (issued st)) (inFlight st)
  ∧ (isAnalyzing st = true → inFlight st ≠ []).
Proof.
  cbv zeta. change (analyzer_ok (analyzer_run evs (mount v))).
  induction evs as [|ev evs IH] using rev_ind; [apply mount_ok|].
  rewrite analyzer_run_app. by apply analyzer_step_ok.
Qed.

Lemma step_requests_bounded ev st :
  length (issued (analyzer_step ev st)) + pending_timers (analyzer_step ev st)
  ≤ length (issued st) + pending_timers st + (if is_render ev then 1 else 0).
Proof.
  destruct ev as [v|ms|id outcome]; simpl.
  - case_bool_decide; [lia|]. unfold pending_timers. simpl.
    destruct (run_effect v), (debounceTimer st); lia.
  - unfold pending_timers. destruct (debounceTimer st) as [[r s]|] eqn:Ht; [|rewrite Ht; lia].
    destruct (r <=? ms); simpl; rewrite ?length_app; simpl; lia.
  - case_bool_decide; unfold pending_timers; simpl; lia.
Qed.

(** X6.  Over any sequence of events the requests made, together with a
    timer still pending, number at most one per render of the sequence,
    besides those and the timer there were before. *)
Theorem requests_bounded_by_renders (st : AnalyzerState) (evs : list AnalyzerEvent) :
  length (issued (analyzer_run evs st)) + pending_timers (analyzer_run evs st)
  ≤ length (issued st) + pending_timers st + length (filter (λ ev, is_render ev = true) evs).
Proof.
  induction evs as [|ev evs IH] using rev_ind; [simpl; lia|].
  rewrite analyzer_run_app, filter_app, length_app.
  assert (length (filter (λ ev, is_render ev = true) [ev])
          = if is_render ev then 1 else 0) as -> by (by destruct ev).
  pose proof (step_requests_bounded ev (analyzer_run evs st)) as Hs.
  simpl. lia.
Qed.

(** X7.  Renders and waits never touch the stored guidance: it stays as it
    is, whatever the description becomes, until a request settles; nor do
    they drop a request in flight or lower the busy flag. *)
Theorem guidance_changes_only_on_response (st : AnalyzerState)
    (evs : list AnalyzerEvent) :
  Forall (λ ev, is_settle ev = false) evs →
  aiGuidance (analyzer_run evs st) = aiGuidance st
  ∧ inFlight st ⊆ inFlight (analyzer_run evs st)
  ∧ (isAnalyzing st = true → isAnalyzing (analyzer_run evs st) = true).
Proof.
  induction evs as [|ev evs IH] using rev_ind; intros Hall; [done|].
  apply Forall_app in Hall as [Hall Hev]. apply Forall_cons in Hev as [Hev _].
  destruct (IH Hall) as (Hg & Hin & Hflag).
  rewrite analyzer_run_app. simpl. set (st1 := analyzer_run evs st) in *.
  destruct ev as [v|ms|id outcome]; simpl.
  - case_bool_decide; auto.
  - destruct (debounceTimer st1) as [[r s]|]; [|auto].
    destruct (r <=? ms); simpl; [|auto].
    split; [done|]. split; [|done]. set_solver.
  - done.
Qed.

Lemma guidance_changes_only_on_response_witness :
  aiGuidance (analyzer_run [Render (Some (VStr (str "short"))); Elapse 2000]
                (analyzer_run (take 5 stale_trace) (mount None)))
  = aiGuidance (analyzer_run (take 5 stale_trace) (mount None))
  ∧ inFlight (analyzer_run (take 5 stale_trace) (mount None))
    ⊆ inFlight (analyzer_run [Render (Some (VStr (str "short"))); Elapse 2000]
                  (analyzer_run (take 5 stale_trace) (mount None)))
  ∧ (isAnalyzing (analyzer_run (take 5 stale_trace) (mount None)) = true →
     isAnalyzing (analyzer_run [Render (Some (VStr (str "short"))); Elapse 2000]
                    (analyzer_run (take 5 stale_trace) (mount None))) = true).
Proof.
  apply (guidance_changes_only_on_response
           (analyzer_run (take 5 stale_trace) (mount None))
           [Render (Some (VStr (str "short"))); Elapse 2000]).
  repeat constructor.
Defined.

(** ** The other service helpers *)




(** ** The translation service client *)


(** ** Recognition events *)

Lemma event_transcript_heads (results : list (list jsstring)) :
  Forall (λ r, r ≠ []) results →
  event_transcript results = Normal (concat (omap head results)).
Proof.
  intros Hall. unfold event_transcript.
  assert (mapM (M := completion) (λ result : list jsstring,
            match head result with
            | Some alternative => Normal alternative
            | None => Throw TypeError
            end) results = Normal (omap head results)) as ->; [|done].
  induction Hall as [|[|a r] results Hr _ IH]; simpl; [done|done|].
  by rewrite IH.
Qed.

(** X11.  On a recognition event whose results all have an alternative,
    [onresult] calls [onTranscript] exactly once and leaves the translating
    flag down.  The argument is the concatenation of the first
    alternatives when the translation throws or yields [null] or
    [undefined]; otherwise it is the [translatedText] property of the
    payload, [undefined] when the payload has none. *)
Theorem onresult_forwards_once
    (axios_post : jsstring → jsval → jsval → completion jsval)
    (results : list (list jsstring)) (st : SpeechState) :
  Forall (λ r, r ≠ []) results →
  let transcript := concat (omap head results) in
  ∃ call, onresult axios_post results st
          = Normal ({| isListening := isListening st; recognition := recognition st;
                       selectedLanguage := selectedLanguage st;
                       isTranslating := false |}, [call])
    ∧ match translateText axios_post transcript
              (language_code (selectedLanguage st)) (str "en") with
      | Throw _ | Normal JUndefined | Normal JNull => call = JStr transcript
      | Normal (JObj props) =>
          call = default JUndefined (assoc_lookup "translatedText" props)
      | Normal _ => call = JUndefined
      end.
Proof.
  intros Hall transcript. unfold onresult.
  rewrite event_transcript_heads by done. simpl. fold transcript.
  destruct (translateText axios_post transcript _ _) as [[| | | | | |props]|e];
    simpl; eauto.
Qed.

Lemma onresult_forwards_once_witness :
  ∃ call, onresult axios_down [[str "mera naam "; str "mera nam "]; [str "ravi"]]
            listening_state
          = Normal ({| isListening := true; recognition := recognition listening_state;
                       selectedLanguage := str "hi-IN"; isTranslating := false |},
                    [call])
    ∧ call = JStr (str "mera naam ravi").
Proof.
  apply (onresult_forwards_once axios_down
           [[str "mera naam "; str "mera nam "]; [str "ravi"]] listening_state).
  repeat constructor; discriminate.
Defined.

(** A payload without [translatedText] is forwarded as [undefined]: the
    transcript itself is not passed on. *)
Example onresult_payload_without_text :
  onresult (λ _ _ _, Normal (JObj [("data", JObj [("status", JStr (str "ok"))])]))
    [[str "mera naam ravi"]] listening_state
  = Normal ({| isListening := true; recognition := recognition listening_state;
               selectedLanguage := str "hi-IN"; isTranslating := false |},
            [JUndefined]).
Proof. reflexivity. Qed.

Example language_code_of_locale :
  language_code (str "hi-IN") = str "hi" ∧ language_code (str "hi") = str "hi"
  ∧ language_code [] = [].
Proof. repeat split. Qed.

Lemma onresult_empty_result
    (axios_post : jsstring → jsval → jsval → completion jsval)
    (before after : list (list jsstring)) (st : SpeechState) :
  Forall (λ r, r ≠ []) before →
  onresult axios_post (before ++ [] :: after) st = Throw TypeError.
Proof.
  intros Hall. unfold onresult, event_transcript.
  assert (mapM (M := completion) (λ result : list jsstring,
            match head result with
            | Some alternative => Normal alternative
            | None => Throw TypeError
            end) (before ++ [] :: after) = Throw TypeError) as ->; [|done].
  induction Hall as [|[|a r] results Hr _ IH]; simpl; [done|done|].
  by rewrite IH.
Qed.

(** ** Language changes *)

(** X12.  After a change to another language, on a browser with speech
    recognition, the control is idle with the new language selected, and
    the next [toggleListening] starts a fresh recognition configured for
    that language, whatever the state the old one was in. *)
Theorem language_change_restarts (language : jsstring) (st : SpeechState) :
  language ≠ selectedLanguage st →
  ∃ st1, change_language true language st = Normal st1
    ∧ isListening st1 = false
    ∧ selectedLanguage st1 = language
    ∧ toggleListening st1
      = Normal {| isListening := true;
                  recognition := Some {| continuous := true; interimResults := true;
                                         lang := language; started := true |};
                  selectedLanguage := language;
                  isTranslating := isTranslating st |}.
Proof.
  intros Hne. unfold change_language, handleLanguageChange.
  rewrite bool_decide_eq_false_2 by done.
  destruct (isListening st), (recognition st) as [r|]; simpl;
    eexists; (split; [reflexivity|]); done.
Qed.

Lemma language_change_restarts_witness :
  ∃ st1, change_language true (str "ta-IN") listening_state = Normal st1
    ∧ isListening st1 = false
    ∧ selectedLanguage st1 = str "ta-IN"
    ∧ toggleListening st1
      = Normal {| isListening := true;
                  recognition := Some {| continuous := true; interimResults := true;
                                         lang := str "ta-IN"; started := true |};
                  selectedLanguage := str "ta-IN";
                  isTranslating := false |}.
Proof.
  apply (language_change_restarts (str "ta-IN") listening_state). discriminate.
Defined.

Lemma language_change_without_capability (language : jsstring) (st : SpeechState) :
  recognition st = None →
  change_language false language st
  = Normal {| isListening := false; recognition := None;
              selectedLanguage := language; isTranslating := isTranslating st |}.
Proof.
  intros H. unfold change_language, handleLanguageChange. rewrite H.
  destruct (isListening st) eqn:Hl; simpl; by case_bool_decide.
Qed.

(** ** Tokens and tails *)

Lemma split_not_nil (s : jsstring) : split s ≠ [].
Proof.
  destruct s as [|c s]; simpl; [done|].
  destruct (c =? SPACE)%N; [done|]. by destruct (split s).
Qed.

(** [s.split(' ').join(' ')] is [s]. *)
Lemma join_split (s : jsstring) : join (split s) = s.
Proof.
  induction s as [|c s IH]; [done|]. simpl.
  destruct (N.eqb_spec c SPACE) as [->|Hne].
  - pose proof (split_not_nil s). destruct (split s) as [|w ws]; [done|].
    simpl in *. by rewrite IH.
  - destruct (split s) as [|w ws] eqn:Hs; [by destruct (split_not_nil s)|].
    destruct ws as [|w' ws]; simpl in *; by rewrite <- IH.
Qed.

Lemma join_app (l1 l2 : list jsstring) :
  l1 ≠ [] → l2 ≠ [] → join (l1 ++ l2) = join l1 ++ SPACE :: join l2.
Proof.
  intros H1 H2. induction l1 as [|w l1 IH]; [done|].
  destruct l1 as [|w' l1].
  - destruct l2; [done|]. done.
  - change (join ((w :: w' :: l1) ++ l2))
      with (w ++ SPACE :: join ((w' :: l1) ++ l2)).
    rewrite IH by done. simpl. by rewrite <- app_assoc.
Qed.

(** The value a keyword yields is what follows the keyword's token and one
    space in the text, and it is not empty. *)
Lemma keyword_value_tail find (text : jsstring) (keyword v : jsstring) :
  keyword_value find (split text) keyword = Some v →
  v ≠ [] ∧ ∃ prefix, text = prefix ++ SPACE :: v.
Proof.
  unfold keyword_value. destruct (find keyword (split text)) as [i|]; [|done].
  destruct (split text !! (i + 1)) as [[|c w]|] eqn:Hl; simpl; try done.
  intros [= <-].
  pose proof (take_drop (i + 1) (split text)) as Htd.
  pose proof (lookup_lt_Some _ _ _ Hl) as Hlen.
  assert (Hd : ∃ rest, drop (i + 1) (split text) = (c :: w) :: rest).
  { destruct (drop (i + 1) (split text)) as [|x rest] eqn:Hd.
    - apply (f_equal length) in Hd. rewrite length_drop in Hd. simpl in Hd. lia.
    - exists rest. f_equal.
      assert (drop (i + 1) (split text) !! 0 = Some (c :: w)) as H0
        by (rewrite lookup_drop, Nat.add_0_r; done).
      rewrite Hd in H0. by injection H0. }
  destruct Hd as [rest Hd]. split.
  - rewrite Hd. by destruct rest.
  - exists (join (take (i + 1) (split text))).
    rewrite <- join_app.
    + by rewrite Htd, join_split.
    + intros Ht. apply (f_equal length) in Ht. rewrite length_take in Ht.
      simpl in Ht. lia.
    + by rewrite Hd.
Qed.

Lemma last_some_elem {A B} (f : A → option B) (l : list A) (y : B) :
  last_some f l = Some y → ∃ x, x ∈ l ∧ f x = Some y.
Proof.
  unfold last_some. intros H. apply last_Some_elem_of in H.
  apply list_elem_of_omap in H. naive_solver.
Qed.

(** X13.  Whenever [handleSpeechInput] changes the value of a field, the new
    value is a non-empty string, it is the end of the scanned text (the
    lower-cased translation, or transcript) right after one of its spaces,
    and the error of the field is cleared. *)
Theorem spoken_value_is_tail (toLowerCase : jsstring → jsstring)
    (axios_post : jsstring → jsval → jsval → completion jsval)
    (transcript : jsstring) (st st' : AppState) (field : string) :
  handleSpeechInput toLowerCase axios_post transcript st = Normal st' →
  formData st' !! field ≠ formData st !! field →
  ∃ v prefix,
    formData st' !! field = Some (VStr v)
    ∧ v ≠ []
    ∧ scanned_text toLowerCase axios_post transcript = prefix ++ SPACE :: v
    ∧ errors st' !! field = None.
Proof.
  rewrite handleSpeechInput_path. intros [= <-] Hch.
  destruct (apply_table_field (extraction_input toLowerCase axios_post transcript).1
              (extraction_input toLowerCase axios_post transcript).2
              fieldMappings st field fieldMappings_NoDup) as (_ & _ & Hf).
  cbv zeta in Hf.
  destruct (assoc_lookup field fieldMappings ≫= _) as [v|] eqn:Hv;
    [|by destruct Hf as [Hf _]].
  destruct Hf as [Hfd Her]. exists v.
  apply bind_Some in Hv as (kws & _ & Hlast).
  apply last_some_elem in Hlast as (kw & _ & Hkw).
  assert (Hsplit : (extraction_input toLowerCase axios_post transcript).2
                   = split (scanned_text toLowerCase axios_post transcript)).
  { unfold extraction_input, scanned_text.
    by destruct (translated_text axios_post transcript). }
  rewrite Hsplit in Hkw. apply keyword_value_tail in Hkw as (Hne & prefix & Htext).
  exists prefix. done.
Qed.

Lemma spoken_value_is_tail_witness :
  ∃ v prefix,
    formData (state_after (initialState [])
                (handleSpeechInput ascii_toLowerCase axios_down
                   (str "My name is Alice") (initialState []))) !! "name"
    = Some (VStr v)
    ∧ v ≠ []
    ∧ scanned_text ascii_toLowerCase axios_down (str "My name is Alice")
      = prefix ++ SPACE :: v
    ∧ errors (state_after (initialState [])
                (handleSpeechInput ascii_toLowerCase axios_down
                   (str "My name is Alice") (initialState []))) !! "name" = None.
Proof.
  apply (spoken_value_is_tail ascii_toLowerCase axios_down (str "My name is Alice")
           (initialState [])).
  - vm_compute. reflexivity.
  - vm_compute. discriminate.
Defined.

(** ** Validation and the two tables *)

(** X15.  For every field of the form that carries a validation rule, the
    pattern of the rule and the form schema accept the same strings. *)
Theorem pattern_agrees_with_schema (sec : FormSection) (f : FormField)
    (rule : Validation) (fd : gmap string FormValue) (s : jsstring) :
  sec ∈ formSections → f ∈ fields sec → f_validation f = Some rule →
  fd !! f_id f = Some (VStr s) →
  pattern rule s = true ↔ schema_issues (f_id f) fd = [].
Proof.
  intros Hsec Hf Hrule Hfd. unfold formSections in Hsec.
  repeat (apply elem_of_cons in Hsec as [-> | Hsec]); [| |by apply elem_of_nil in Hsec];
    simpl in Hf;
    repeat (apply elem_of_cons in Hf as [-> | Hf]); try (by apply elem_of_nil in Hf);
    try discriminate.
  injection Hrule as <-. simpl in *.
  destruct (schema_rules fd) as [Hname _]. rewrite Hname, Hfd.
  unfold name_pattern. rewrite !andb_true_iff, !Nat.leb_le. split.
  - intros [[Hl Hmin] Hmax]. exists s. split; [done|]. split; [lia|done].
  - intros (s' & [= <-] & Hlen & Hl). split; [split; [done|lia]|lia].
Qed.

Lemma pattern_agrees_with_schema_witness :
  name_pattern (str "Alice") = true
  ↔ schema_issues "name" (personal_data (str "12 Main Street")) = [].
Proof.
  apply (pattern_agrees_with_schema personalInformation
           {| f_id := "name"; f_label := str "Full Name"; f_type := TText;
              f_required := true;
              f_validation := Some
                {| pattern := name_pattern;
                   message := str "Please enter a valid name (2-50 characters, letters only)" |} |}
           {| pattern := name_pattern;
              message := str "Please enter a valid name (2-50 characters, letters only)" |}
           (personal_data (str "12 Main Street")) (str "Alice")).
  - constructor.
  - constructor.
  - reflexivity.
  - vm_compute. reflexivity.
Defined.

Lemma forallb_false_elem {A} (p : A → bool) (l : list A) :
  forallb p l = false → ∃ x, x ∈ l ∧ p x = false.
Proof.
  induction l as [|x l IH]; simpl; [done|].
  destruct (p x) eqn:Hx; simpl.
  - intros (y & Hy & Hp)%IH. exists y. split; [by right|done].
  - intros _. exists x. split; [by left|done].
Qed.

Lemma file_fields_schema (sec : FormSection) (f : FormField) :
  sec ∈ formSections → f ∈ fields sec → f_type f = TFile →
  ∃ msg, assoc_lookup (f_id f) formSchema = Some (z_instanceof_File msg).
Proof.
  intros Hsec Hf Hty. unfold formSections in Hsec.
  repeat (apply elem_of_cons in Hsec as [-> | Hsec]); [| |by apply elem_of_nil in Hsec];
    simpl in Hf;
    repeat (apply elem_of_cons in Hf as [-> | Hf]); try (by apply elem_of_nil in Hf);
    try discriminate; vm_compute; eauto.
Qed.

(** X14.  A dropped or chosen file within the size limit, stored under a
    file field of the active step, is never reported by the next validation
    pass: if [handleNext] returns, the field holds the file and has no
    error. *)
Theorem accepted_upload_validates (st : AppState) (sec : FormSection)
    (f : FormField) (file : File) (rest : list File) :
  section_at (currentStep st) = Some sec → f ∈ fields sec → f_type f = TFile →
  (file_size file ≤ MAX_FILE_SIZE)%N →
  ∀ effects st',
    effects = handleDrop (Some (file :: rest))
    ∨ effects = handleFileChange (Some (file :: rest)) →
    handleNext (apply_upload (f_id f) effects st) = Normal st' →
    formData st' !! f_id f = Some (VFile file) ∧ errors st' !! f_id f = None.
Proof.
  intros Hsec Hf Hty Hsize effects st' Heff.
  assert (Hup : apply_upload (f_id f) effects st
                = handleInputChange (f_id f) (VFile file) st).
  { destruct Heff as [-> | ->]; unfold handleDrop, handleFileChange;
      by destruct (N.leb_spec (file_size file) MAX_FILE_SIZE); [|lia]. }
  rewrite Hup. clear Hup.
  assert (Hsec1 : section_at (currentStep (handleInputChange (f_id f) (VFile file) st))
                  = Some sec) by done.
  assert (Hfd1 : formData (handleInputChange (f_id f) (VFile file) st) !! f_id f
                 = Some (VFile file)) by (simpl; apply lookup_insert_eq).
  remember (handleInputChange (f_id f) (VFile file) st) as st1 eqn:Hst1.
  clear Hst1. unfold handleNext.
  destruct (validateStep_section st1 sec Hsec1) as (errs & Herrs & ->).
  destruct (step_passes sec (formData st1)) eqn:Hp; simpl; intros [= <-]; simpl;
    (split; [done|]); [done|].
  rewrite Herrs by done. unfold expected_error.
  destruct (file_fields_schema sec f (section_at_elem _ _ Hsec) Hf Hty) as [msg Hschema].
  case_bool_decide as Hm.
  - case_bool_decide; [|done]. unfold schema_issues. by rewrite Hschema, Hfd1.
  - case_bool_decide as Hin; [|done]. unfold missing_fields in Hin.
    apply list_elem_of_filter in Hin as [Hfalsy _]. by rewrite Hfd1 in Hfalsy.
Qed.

Lemma accepted_upload_validates_witness :
  formData (state_after (initialState [])
              (handleNext (apply_upload "idProof" (handleFileChange (Some [sample_file]))
                             (initialState [])))) !! "idProof"
  = Some (VFile sample_file)
  ∧ errors (state_after (initialState [])
              (handleNext (apply_upload "idProof" (handleFileChange (Some [sample_file]))
                             (initialState [])))) !! "idProof" = None.
Proof.
  apply (accepted_upload_validates (initialState []) personalInformation
           {| f_id := "idProof"; f_label := str "Identity Proof"; f_type := TFile;
              f_required := true; f_validation := None |}
           sample_file [] ltac:(reflexivity) ltac:(repeat constructor)
           ltac:(reflexivity) ltac:(vm_compute; discriminate)
           (handleFileChange (Some [sample_file]))).
  - by right.
  - vm_compute. reflexivity.
Defined.

(** X16.  On a data-entry step [handleNext] either advances by one step
    with no error left, or stays and leaves at least one error; every error
    it leaves belongs to a field of the active step. *)
Theorem advance_fails_loudly (st st' : AppState) (sec : FormSection) :
  section_at (currentStep st) = Some sec →
  handleNext st = Normal st' →
  (currentStep st' = (currentStep st + 1)%Z ∧ errors st' = ∅)
  ∨ (currentStep st' = currentStep st
     ∧ errors st' ≠ ∅
     ∧ ∀ id, is_Some (errors st' !! id) → id ∈ f_id <$> fields sec).
Proof.
  intros Hsec. pose proof (section_at_step _ _ Hsec) as Hr. unfold handleNext.
  destruct (validateStep_section st sec Hsec) as (errs & Herrs & ->). simpl.
  destruct (step_passes sec (formData st)) eqn:Hp; intros [= <-]; simpl.
  - left. change LAST_STEP with 3%Z. split; [lia|done].
  - right. split; [done|]. specialize (Herrs eq_refl).
    assert (Hkeys : ∀ id, is_Some (errs !! id) → id ∈ f_id <$> fields sec).
    { intros id. rewrite Herrs. unfold expected_error.
      case_bool_decide as Hm.
      - case_bool_decide; [done|]. by intros [? ?].
      - case_bool_decide as Hin; [|by intros [? ?]]. intros _.
        unfold missing_fields in Hin.
        apply list_elem_of_filter in Hin as [_ Hin].
        apply list_elem_of_fmap in Hin as (g & -> & Hg).
        apply list_elem_of_filter in Hg as [_ Hg]. by apply list_elem_of_fmap_2. }
    split; [|done].
    intros Hempty. unfold step_passes in Hp.
    destruct (missing_fields sec (formData st)) as [|m ms] eqn:Hm.
    + rewrite bool_decide_eq_true_2 in Hp by done. simpl in Hp.
      apply forallb_false_elem in Hp as (g & Hg & Hissues).
      apply bool_decide_eq_false in Hissues.
      pose proof (Herrs (f_id g)) as He. unfold expected_error in He.
      rewrite Hm in He. rewrite bool_decide_eq_true_2 in He by done.
      rewrite bool_decide_eq_true_2 in He by (by apply list_elem_of_fmap_2).
      rewrite Hempty, lookup_empty in He. symmetry in He.
      by apply last_None in He.
    + pose proof (Herrs m) as He. unfold expected_error in He. rewrite Hm in He.
      rewrite bool_decide_eq_false_2 in He by done.
      rewrite bool_decide_eq_true_2 in He by left.
      by rewrite Hempty, lookup_empty in He.
Qed.

Lemma advance_fails_loudly_witness :
  (currentStep (state_after (initialState []) (handleNext (initialState [])))
   = (currentStep (initialState []) + 1)%Z
   ∧ errors (state_after (initialState []) (handleNext (initialState []))) = ∅)
  ∨ (currentStep (state_after (initialState []) (handleNext (initialState [])))
     = currentStep (initialState [])
     ∧ errors (state_after (initialState []) (handleNext (initialState []))) ≠ ∅
     ∧ ∀ id, is_Some (errors (state_after (initialState [])
                                (handleNext (initialState []))) !! id) →
             id ∈ f_id <$> fields personalInformation).
Proof.
  apply (advance_fails_loudly (initialState [])
           (state_after (initialState []) (handleNext (initialState [])))
           personalInformation).
  - reflexivity.
  - vm_compute. reflexivity.
Defined.

(** ** The listen control and the language selector together *)

(** The flag and the handle agree, and the handle is set to the selected
    language. *)
Lemma speech_step_consistent (st : SpeechState) (r : Recognition) (a : SpeechAction) :
  recognition st = Some r → started r = isListening st → lang r = selectedLanguage st →
  ∃ st' r', speech_perform true (Normal st) a = Normal st'
    ∧ recognition st' = Some r' ∧ started r' = isListening st'
    ∧ lang r' = selectedLanguage st'.
Proof.
  intros Hrec Hst Hlang. destruct a as [|language]; simpl.
  - unfold toggleListening. rewrite Hrec.
    destruct (isListening st) eqn:Hl; simpl.
    + eexists _, _. split; [reflexivity|]. simpl. auto.
    + unfold recognition_start. rewrite Hst. simpl.
      eexists _, _. split; [reflexivity|]. simpl. auto.
  - unfold change_language, handleLanguageChange. rewrite Hrec.
    destruct (isListening st) eqn:Hl; simpl;
      case_bool_decide; simpl; eexists _, _; (split; [reflexivity|]); simpl; auto.
Qed.

(** X17.  On a browser with speech recognition, no sequence of presses of
    the listen control and changes of language makes the component throw;
    after each of them the listening flag says whether the recognition it
    holds is started, and that recognition is set to the selected
    language. *)
Theorem speech_controls_consistent (actions : list SpeechAction) :
  ∃ st r, fold_left (speech_perform true) actions (Normal (speech_mounted true))
          = Normal st
    ∧ recognition st = Some r
    ∧ started r = isListening st
    ∧ lang r = selectedLanguage st.
Proof.
  induction actions as [|a actions IH] using rev_ind.
  - eexists _, _. split; [reflexivity|]. simpl. auto.
  - destruct IH as (st & r & Hrun & Hrec & Hst & Hlang).
    rewrite fold_left_app, Hrun. simpl fold_left.
    destruct (speech_step_consistent st r a Hrec Hst Hlang)
      as (st' & r' & Hstep & ?). eauto.
Qed.

(** After a recognition error the flag is down while the handle the state
    holds has not been stopped by the component. *)
Example onerror_leaves_handle :
  isListening (onerror listening_state) = false
  ∧ (started <$> recognition (onerror listening_state)) = Some true.
Proof. split; reflexivity. Qed.
